(** * rtype: a bincode-style schema codec

    A shallow embedding of the schema model, [encode] and [decode] of the
    repository's later codec (the file with [TYPE_KIND], [SYMBOL_EXPR],
    [encode] and [decode]), together with the part of the JavaScript
    platform these functions run on: [DataView] reads and writes on an
    [ArrayBuffer], the number and bigint conversions they apply, property
    enumeration order, [TextEncoder] and [TextDecoder]. *)

From Stdlib Require Import ZArith Lia Bool Ascii.
From Stdlib Require Import Floats.SpecFloat.
From stdpp Require Import base list strings gmap pretty sorting.

#[local] Set Warnings "-register-all".
#[local] Open Scope Z_scope.

(** ** Outcomes

    A call either returns or throws.  [RangeError] and [TypeError] are the
    platform's exceptions, [Thrown] is a string thrown by the codec itself.
    [Unmodelled] marks the few behaviours of the platform on ill-shaped
    values that this development does not describe (parsing a string as a
    number, properties inherited from a prototype, and the like); no
    statement below treats it as a failure of the code. *)

Inductive error :=
| RangeError
| TypeError
| Thrown (msg : string)
| Unmodelled.

Inductive result (A : Type) :=
| Ok (a : A)
| Err (e : error).
Arguments Ok {A} a.
Arguments Err {A} e.

#[global] Instance result_ret : MRet result := fun A a => Ok a.
#[global] Instance result_bind : MBind result := fun A B k r =>
  match r with
  | Ok a => k a
  | Err e => Err e
  end.

(** ** ArrayBuffer and DataView

    A buffer is its sequence of bytes, each a [Z] in [0, 256); every write
    stores values reduced modulo 256.  Offsets are integers. *)

Abbreviation ArrayBuffer := (list Z).

Definition byteLength (buffer : ArrayBuffer) : Z := Z.of_nat (length buffer).

(** Code that writes: the buffer is threaded through, and survives a throw
    with whatever was written before it. *)
Definition Enc (A : Type) : Type := ArrayBuffer -> ArrayBuffer * result A.

#[global] Instance Enc_ret : MRet Enc := fun A a buffer => (buffer, Ok a).
#[global] Instance Enc_bind : MBind Enc := fun A B k m buffer =>
  match m buffer with
  | (buffer', Ok a) => k a buffer'
  | (buffer', Err e) => (buffer', Err e)
  end.

Definition throw {A} (e : error) : Enc A := fun buffer => (buffer, Err e).
Definition lift {A} (r : result A) : Enc A := fun buffer => (buffer, r).

Fixpoint le_bytes (w : nat) (z : Z) : list Z :=
  match w with
  | O => []
  | S w' => z mod 256 :: le_bytes w' (z / 256)
  end.

Fixpoint le_value (bytes : list Z) : Z :=
  match bytes with
  | [] => 0
  | b :: bytes' => b + 256 * le_value bytes'
  end.

(** The [w] bytes of an integer in the requested byte order (two's
    complement for a negative one), and back. *)
Definition int_bytes (littleEndian : bool) (w : nat) (z : Z) : list Z :=
  if littleEndian then le_bytes w z else rev (le_bytes w z).

Definition int_value (littleEndian : bool) (bytes : list Z) : Z :=
  if littleEndian then le_value bytes else le_value (rev bytes).

Definition signed (w : nat) (u : Z) : Z :=
  if u <? 2 ^ (8 * Z.of_nat w - 1) then u else u - 2 ^ (8 * Z.of_nat w).

Definition in_view (buffer : ArrayBuffer) (offset : Z) (w : nat) : bool :=
  (0 <=? offset) && (offset + Z.of_nat w <=? byteLength buffer).

(** Reading [w] bytes at [offset]; out of the view is a [RangeError]. *)
Definition view_get (buffer : ArrayBuffer) (offset : Z) (w : nat) : result (list Z) :=
  if in_view buffer offset w
  then Ok (take w (drop (Z.to_nat offset) buffer))
  else Err RangeError.

(** Writing bytes at [offset], in place. *)
Definition view_set (offset : Z) (bytes : list Z) : Enc unit := fun buffer =>
  if in_view buffer offset (length bytes)
  then (take (Z.to_nat offset) buffer ++ bytes
          ++ drop (Z.to_nat offset + length bytes) buffer, Ok tt)
  else (buffer, Err RangeError).

Definition getUint (w : nat) (buffer : ArrayBuffer) (offset : Z) (littleEndian : bool) : result Z :=
  bytes ← view_get buffer offset w; mret (int_value littleEndian bytes).

Definition getInt (w : nat) (buffer : ArrayBuffer) (offset : Z) (littleEndian : bool) : result Z :=
  u ← getUint w buffer offset littleEndian; mret (signed w u).

(** ** Numbers

    A JavaScript number is an IEEE-754 binary64 value, carried as a
    [spec_float] in canonical form (53-bit mantissa, or the least exponent). *)

Abbreviation number := spec_float.

(** The number of an integer; exact below 2^53, rounded to nearest above. *)
Definition of_Z (z : Z) : number :=
  if z =? 0 then S754_zero false
  else if Z.abs z <? 2 ^ 53 then
    let k := 52 - Z.log2 (Z.abs z) in
    S754_finite (z <? 0) (Z.to_pos (Z.abs z * 2 ^ k)) (- k)
  else binary_normalize 53 1024 z 0 false.

(** Truncation towards zero, as the integer conversions of [DataView]
    setters do it; NaN, the zeros and the infinities give 0. *)
Definition trunc (f : number) : Z :=
  match f with
  | S754_finite s m e =>
      cond_Zopp s (if 0 <=? e then Z.pos m * 2 ^ e else Z.pos m / 2 ^ (- e))
  | _ => 0
  end.

(** Bit pattern of a float in the format of precision [prec] and exponent
    bound [emax] (24 and 128 for binary32, 53 and 1024 for binary64); NaN is
    written as the quiet NaN with an empty payload. *)
Definition float_bits (prec emax : Z) (f : number) : Z :=
  let mbits := prec - 1 in
  let sign (s : bool) := if s then 2 ^ mbits * (2 * emax) else 0 in
  match f with
  | S754_zero s => sign s
  | S754_infinity s => sign s + (2 * emax - 1) * 2 ^ mbits
  | S754_nan => (2 * emax - 1) * 2 ^ mbits + 2 ^ (mbits - 1)
  | S754_finite s m e =>
      if Z.pos m <? 2 ^ mbits then sign s + Z.pos m
      else sign s + (e - emin prec emax + 1) * 2 ^ mbits + (Z.pos m - 2 ^ mbits)
  end.

Definition bits_float (prec emax : Z) (bits : Z) : number :=
  let mbits := prec - 1 in
  let s := (bits / (2 ^ mbits * (2 * emax))) mod 2 =? 1 in
  let biased := (bits / 2 ^ mbits) mod (2 * emax) in
  let fraction := bits mod 2 ^ mbits in
  if biased =? 2 * emax - 1 then
    if fraction =? 0 then S754_infinity s else S754_nan
  else if biased =? 0 then
    match fraction with
    | Z.pos m => S754_finite s m (emin prec emax)
    | _ => S754_zero s
    end
  else S754_finite s (Z.to_pos (fraction + 2 ^ mbits)) (biased + emin prec emax - 1).

(** Rounding a number into a format (to nearest, ties to even). *)
Definition round_to (prec emax : Z) (f : number) : number :=
  match f with
  | S754_finite s m e => binary_normalize prec emax (cond_Zopp s (Z.pos m)) e s
  | _ => f
  end.

Definition getFloat32 (buffer : ArrayBuffer) (offset : Z) (littleEndian : bool) : result number :=
  bits ← getUint 4 buffer offset littleEndian;
  mret (round_to 53 1024 (bits_float 24 128 bits)).

Definition getFloat64 (buffer : ArrayBuffer) (offset : Z) (littleEndian : bool) : result number :=
  bits ← getUint 8 buffer offset littleEndian;
  mret (bits_float 53 1024 bits).

(** ** Values

    The run-time data handed to [encode] and returned by [decode].  An
    object is the finite map of its own string-keyed properties (the order
    of the properties of a value is never looked at by the codec); an enum
    value is the object built by [EnumVariantValue], with its [VARIANT] and
    [VALUE] slots.  A string is carried by its UTF-8 bytes, one per
    character, so strings with a lone surrogate are not represented. *)

Inductive Value :=
| VUndef
| VNum (f : number)
| VBig (z : Z)
| VBool (b : bool)
| VStr (s : string)
| VArr (elements : list Value)
| VObj (props : gmap string Value)
| VEnum (variant : string) (value : Value).

Definition EnumVariantValue (variant : string) (value : Value) : Value :=
  VEnum variant value.

(** [ToNumber], on the values a schema can meet. *)
Definition ToNumber (v : Value) : result number :=
  match v with
  | VNum f => Ok f
  | VUndef => Ok S754_nan
  | VBool b => Ok (of_Z (if b then 1 else 0))
  | VBig _ => Err TypeError
  | VStr _ | VArr _ | VObj _ | VEnum _ _ => Err Unmodelled
  end.

(** [ToBigInt]. *)
Definition ToBigInt (v : Value) : result Z :=
  match v with
  | VBig z => Ok z
  | VBool b => Ok (if b then 1 else 0)
  | VNum _ | VUndef => Err TypeError
  | VStr _ | VArr _ | VObj _ | VEnum _ _ => Err Unmodelled
  end.

(** The setters of [DataView]: the offset is checked for sign, the value is
    converted, then the bounds are checked and the bytes stored. *)
Definition setInteger (w : nat) (offset : Z) (value : Value) (littleEndian : bool) : Enc unit :=
  if offset <? 0 then throw RangeError
  else f ← lift (ToNumber value); view_set offset (int_bytes littleEndian w (trunc f)).

Definition setBigInteger (offset : Z) (value : Value) (littleEndian : bool) : Enc unit :=
  if offset <? 0 then throw RangeError
  else z ← lift (ToBigInt value); view_set offset (int_bytes littleEndian 8 z).

Definition setFloat (prec emax : Z) (w : nat) (offset : Z) (value : Value) (littleEndian : bool) : Enc unit :=
  if offset <? 0 then throw RangeError
  else f ← lift (ToNumber value);
       view_set offset (int_bytes littleEndian w (float_bits prec emax (round_to prec emax f))).

(** The own properties named on [Object.prototype]; a lookup that misses an
    own property and would find one of these is left undescribed. *)
Definition object_prototype_keys : list string :=
  ["constructor"; "__defineGetter__"; "__defineSetter__"; "hasOwnProperty";
   "__lookupGetter__"; "__lookupSetter__"; "isPrototypeOf";
   "propertyIsEnumerable"; "toString"; "valueOf"; "__proto__";
   "toLocaleString"]%string.

Definition inherited (key : string) : bool :=
  bool_decide (key ∈ object_prototype_keys).

(** [value[field]] for a field name. *)
Definition get_field (value : Value) (field : string) : result Value :=
  match value with
  | VUndef => Err TypeError
  | VObj props =>
      match props !! field with
      | Some x => Ok x
      | None => if inherited field then Err Unmodelled else Ok VUndef
      end
  | VEnum _ _ => if inherited field then Err Unmodelled else Ok VUndef
  | VNum _ | VBig _ | VBool _ | VStr _ | VArr _ => Err Unmodelled
  end.

(** [value[index]] for a position. *)
Definition get_index (value : Value) (index : nat) : result Value :=
  match value with
  | VUndef => Err TypeError
  | VArr elements => Ok (default VUndef (elements !! index))
  | VObj props => Ok (default VUndef (props !! pretty index))
  | VNum _ | VBig _ | VBool _ | VEnum _ _ => Ok VUndef
  | VStr _ => Err Unmodelled
  end.

(** ** Strings: TextEncoder and TextDecoder *)

Definition utf8_of_string (s : string) : list Z :=
  (fun a => Z.of_N (N_of_ascii a)) <$> String.list_ascii_of_string s.

Definition string_of_utf8 (bytes : list Z) : string :=
  String.string_of_list_ascii ((fun b => ascii_of_N (Z.to_N b)) <$> bytes).

(** [new TextEncoder().encode(value)]; [undefined] is the empty default. *)
Definition TextEncoder_encode (value : Value) : result (list Z) :=
  match value with
  | VStr s => Ok (utf8_of_string s)
  | VUndef => Ok []
  | _ => Err Unmodelled
  end.

(** The UTF-8 decoder: how many continuation bytes are still needed, the
    bounds on the next one, and the bytes of the sequence read so far. *)
Record utf8_state := {
  needed : nat;
  lower : Z;
  upper : Z;
  pending : list Z
}.

Definition utf8_start : utf8_state :=
  {| needed := 0; lower := 128; upper := 191; pending := [] |}.

(** U+FFFD, emitted for every ill-formed sequence. *)
Definition replacement : list Z := [239; 191; 189].

Definition utf8_lead (b : Z) : list Z * utf8_state :=
  if (0 <=? b) && (b <=? 127) then ([b], utf8_start)
  else if (194 <=? b) && (b <=? 223) then
    ([], {| needed := 1; lower := 128; upper := 191; pending := [b] |})
  else if (224 <=? b) && (b <=? 239) then
    ([], {| needed := 2; lower := if b =? 224 then 160 else 128;
            upper := if b =? 237 then 159 else 191; pending := [b] |})
  else if (240 <=? b) && (b <=? 244) then
    ([], {| needed := 3; lower := if b =? 240 then 144 else 128;
            upper := if b =? 244 then 143 else 191; pending := [b] |})
  else (replacement, utf8_start).

Fixpoint utf8_run (st : utf8_state) (bytes : list Z) : list Z :=
  match bytes with
  | [] => match needed st with O => [] | S _ => replacement end
  | b :: bytes' =>
      match needed st with
      | O => let '(out, st') := utf8_lead b in out ++ utf8_run st' bytes'
      | S n =>
          if (lower st <=? b) && (b <=? upper st) then
            match n with
            | O => pending st ++ [b] ++ utf8_run utf8_start bytes'
            | S _ => utf8_run {| needed := n; lower := 128; upper := 191;
                                 pending := pending st ++ [b] |} bytes'
            end
          else let '(out, st') := utf8_lead b in
               replacement ++ out ++ utf8_run st' bytes'
      end
  end.

Definition strip_bom (bytes : list Z) : list Z :=
  match bytes with
  | 239 :: 187 :: 191 :: rest => rest
  | _ => bytes
  end.

(** [new TextDecoder().decode(bytes)]. *)
Definition TextDecoder_decode (bytes : list Z) : string :=
  string_of_utf8 (strip_bom (utf8_run utf8_start bytes)).

(** [new Uint8Array(buffer, byteOffset, length)]. *)
Definition Uint8Array (buffer : ArrayBuffer) (byteOffset length : Z) : result (list Z) :=
  if (0 <=? length) && (byteOffset + length <=? byteLength buffer)
  then Ok (take (Z.to_nat length) (drop (Z.to_nat byteOffset) buffer))
  else Err RangeError.

(** ** Objects used as schemas and their property order

    A struct or enum schema is a plain object: its string-keyed properties,
    listed here in the order they were created.  Enumeration ([for ... in],
    [Object.keys]) does not follow that order for every key: keys that are
    array indices (canonical decimal numerals up to 2^32 - 2) come first, in
    ascending numeric order, and the other keys follow in creation order.
    The kind tag and the discriminant sit under symbols and are never
    enumerated. *)

Definition digit (a : ascii) : option Z :=
  let n := Z.of_N (N_of_ascii a) in
  if (48 <=? n) && (n <=? 57) then Some (n - 48) else None.

Fixpoint digits_value (s : string) (acc : Z) : option Z :=
  match s with
  | EmptyString => Some acc
  | String a s' => d ← digit a; digits_value s' (10 * acc + d)
  end.

Definition array_index (key : string) : option Z :=
  match key with
  | EmptyString => None
  | String "0"%char EmptyString => Some 0
  | String "0"%char _ => None
  | _ => n ← digits_value key 0; if n <=? 2 ^ 32 - 2 then Some n else None
  end.

Fixpoint insert_index {A} (i : Z) (x : A) (l : list (Z * A)) : list (Z * A) :=
  match l with
  | [] => [(i, x)]
  | (j, y) :: l' => if i <? j then (i, x) :: l else (j, y) :: insert_index i x l'
  end.

Definition integer_keyed {A} (entries : list (string * A)) : list (Z * (string * A)) :=
  foldr (fun e acc => match array_index e.1 with
                      | Some i => insert_index i e acc
                      | None => acc
                      end) [] entries.

Definition string_keyed {A} (entries : list (string * A)) : list (string * A) :=
  filter (fun e => array_index e.1 = None) entries.

(** The entries of an object in enumeration order. *)
Definition enumerate {A} (entries : list (string * A)) : list (string * A) :=
  (integer_keyed entries).*2 ++ string_keyed entries.

(** [object[key]] on such an object. *)
Fixpoint get_own {A} (entries : list (string * A)) (key : string) : option A :=
  match entries with
  | [] => None
  | (k, x) :: entries' => if String.eqb k key then Some x else get_own entries' key
  end.

(** [object[key] = value] on a fresh plain object: an own property is
    created or replaced, except under the key [__proto__], where the setter
    of [Object.prototype] runs and no own property appears. *)
Definition set_property (props : gmap string Value) (key : string) (value : Value)
  : gmap string Value :=
  if String.eqb key "__proto__" then props else <[key := value]> props.

(** ** The schema model *)

(** The kinds stamped by [TypeKindMarker] on the descriptors that carry
    nothing else: unit and the primitives. *)
Inductive Marker :=
| K_unit
| K_u8 | K_u16 | K_u32 | K_u64 | K_u128
| K_i8 | K_i16 | K_i32 | K_i64 | K_i128
| K_f16 | K_f32 | K_f64 | K_f128
| K_bool
| K_String.

(** A type descriptor.  A variant of an enum is its payload descriptor
    together with the discriminant stored on it under [SYMBOL_EXPR].  Array
    sizes and discriminants are integers. *)
Inductive Ty :=
| TypeKindMarker (kind : Marker)
| Tuple (elements : list Ty)
| Array (element : Ty) (size : Z)
| Struct (fields : list (string * Ty))
| Enum (variants : list (string * (Z * Ty)))
| Collection (element : Ty).

(** The descriptor constants; [Bool] and [Str] are the source's [bool] and
    [String], names that are taken here. *)
Abbreviation Unit := (TypeKindMarker K_unit).
Abbreviation u8 := (TypeKindMarker K_u8).
Abbreviation u16 := (TypeKindMarker K_u16).
Abbreviation u32 := (TypeKindMarker K_u32).
Abbreviation u64 := (TypeKindMarker K_u64).
Abbreviation u128 := (TypeKindMarker K_u128).
Abbreviation i8 := (TypeKindMarker K_i8).
Abbreviation i16 := (TypeKindMarker K_i16).
Abbreviation i32 := (TypeKindMarker K_i32).
Abbreviation i64 := (TypeKindMarker K_i64).
Abbreviation i128 := (TypeKindMarker K_i128).
Abbreviation f16 := (TypeKindMarker K_f16).
Abbreviation f32 := (TypeKindMarker K_f32).
Abbreviation f64 := (TypeKindMarker K_f64).
Abbreviation f128 := (TypeKindMarker K_f128).
Abbreviation Bool := (TypeKindMarker K_bool).
Abbreviation Str := (TypeKindMarker K_String).

(** ** Configuration *)

Inductive Endian := big | little.
Inductive IntEncoding := variant_encoding | fixed_encoding.

Record BincodeConfig := {
  endian : Endian;
  int_encoding : IntEncoding;
  limit : option Z
}.

Definition STANDARD : BincodeConfig :=
  {| endian := little; int_encoding := fixed_encoding; limit := None |}.

Definition isLittleEndian (config : BincodeConfig) : bool :=
  match endian config with little => true | big => false end.

(** ** The decoder *)

Definition Decoder : Type := ArrayBuffer -> Z -> BincodeConfig -> result (Value * Z).

(** [for (const elementDefinition of tupleDefinition)]: one decoder after
    the other, each from the offset the previous one returned. *)
Fixpoint decode_each (ds : list Decoder) (buffer : ArrayBuffer) (offset : Z)
    (config : BincodeConfig) : result (list Value * Z) :=
  match ds with
  | [] => Ok ([], offset)
  | d :: ds' =>
      '(element, elementOffset) ← d buffer offset config;
      '(rest, offset') ← decode_each ds' buffer elementOffset config;
      Ok (element :: rest, offset')
  end.

(** [for (let index = 0; index < n; index += 1)]: the same decoder [n] times. *)
Fixpoint decode_times (n : nat) (d : Decoder) (buffer : ArrayBuffer) (offset : Z)
    (config : BincodeConfig) : result (list Value * Z) :=
  match n with
  | O => Ok ([], offset)
  | S n' =>
      '(element, elementOffset) ← d buffer offset config;
      '(rest, offset') ← decode_times n' d buffer elementOffset config;
      Ok (element :: rest, offset')
  end.

(** [for (const field of Object.keys(type))], assigning each decoded field. *)
Fixpoint decode_fields (fs : list (string * Decoder)) (decodedObject : gmap string Value)
    (buffer : ArrayBuffer) (offset : Z) (config : BincodeConfig)
    : result (gmap string Value * Z) :=
  match fs with
  | [] => Ok (decodedObject, offset)
  | (field, d) :: fs' =>
      '(fieldValue, fieldOffset) ← d buffer offset config;
      decode_fields fs' (set_property decodedObject field fieldValue) buffer fieldOffset config
  end.

(** The reverse index of an enum: discriminant to payload and variant name,
    filled in enumeration order, a later variant replacing an earlier one
    with the same discriminant. *)
Definition indexed {A} (e : list (string * (Z * A))) : gmap Z (A * string) :=
  foldl (fun indexedDefinition entry =>
           <[entry.2.1 := (entry.2.2, entry.1)]> indexedDefinition) ∅ (enumerate e).

Fixpoint decode (type : Ty) (buffer : ArrayBuffer) (offset : Z) (config : BincodeConfig)
    {struct type} : result (Value * Z) :=
  let littleEndian := isLittleEndian config in
  match type with
  | TypeKindMarker kind =>
      match kind with
      | K_unit
        (* [value = {}], and no [break]: control runs on into the u8 case *)
      | K_u8 =>
          value ← getUint 1 buffer offset littleEndian;
          Ok (VNum (of_Z value), offset + 1)
      | K_u16 =>
          value ← getUint 2 buffer offset littleEndian;
          Ok (VNum (of_Z value), offset + 2)
      | K_u32 =>
          value ← getUint 4 buffer offset littleEndian;
          Ok (VNum (of_Z value), offset + 4)
      | K_u64 =>
          value ← getUint 8 buffer offset littleEndian;
          Ok (VBig value, offset + 8)
      | K_u128 => Err (Thrown "not supported yet")
      | K_i8 =>
          value ← getInt 1 buffer offset littleEndian;
          Ok (VNum (of_Z value), offset + 1)
      | K_i16 =>
          value ← getInt 2 buffer offset littleEndian;
          Ok (VNum (of_Z value), offset + 2)
      | K_i32 =>
          value ← getInt 4 buffer offset littleEndian;
          Ok (VNum (of_Z value), offset + 4)
      | K_i64 =>
          value ← getInt 8 buffer offset littleEndian;
          Ok (VBig value, offset + 8)
      | K_i128 => Err (Thrown "not supported yet")
      | K_f16 => Err (Thrown "not supported yet")
      | K_f32 =>
          value ← getFloat32 buffer offset littleEndian;
          Ok (VNum value, offset + 4)
      | K_f64 =>
          value ← getFloat64 buffer offset littleEndian;
          Ok (VNum value, offset + 8)
      | K_f128 =>
          (* the switch has no case for it: the initial [{}] is returned *)
          Ok (VObj ∅, offset)
      | K_bool =>
          byte ← getUint 1 buffer offset littleEndian;
          Ok (VBool (byte =? 0), offset + 1)
      | K_String =>
          (* the length is read at [offset], the text at the literal 8; a
             length that [Number] would round exceeds every buffer and is
             refused by [Uint8Array] either way *)
          byteLength ← getUint 8 buffer offset littleEndian;
          bytes ← Uint8Array buffer 8 byteLength;
          Ok (VStr (TextDecoder_decode bytes), offset + 8 + byteLength)
      end
  | Collection element =>
      (* the count is read at the literal 0 *)
      byteLength ← getUint 8 buffer 0 littleEndian;
      (* beyond 2^53 the count is rounded by [Number] and the loop counter
         stops growing: left undescribed *)
      if 2 ^ 53 <? byteLength then Err Unmodelled
      else
        '(collection, offset') ←
          decode_times (Z.to_nat byteLength) (decode element) buffer (offset + 8) config;
        (* no [break]: control runs on into the tuple case with the
           collection descriptor, which has no [length] and is not iterable,
           so its [for ... of] throws *)
        Err TypeError
  | Tuple elements =>
      match elements with
      | [element] => decode element buffer offset config
      | _ =>
          '(tupleValue, offset') ← decode_each (decode <$> elements) buffer offset config;
          Ok (VArr tupleValue, offset')
      end
  | Array element size =>
      '(tupleValue, offset') ←
        decode_times (Z.to_nat size) (decode element) buffer offset config;
      Ok (VArr tupleValue, offset')
  | Struct fields =>
      '(decodedObject, offset') ←
        decode_fields (enumerate ((fun f => (f.1, decode f.2)) <$> fields)) ∅
          buffer offset config;
      Ok (VObj decodedObject, offset')
  | Enum variants =>
      let indexedDefinition :=
        indexed ((fun v => (v.1, (v.2.1, decode v.2.2))) <$> variants) in
      (* [view.getUint32(offset)]: no byte-order argument, so big-endian *)
      variantIndex ← getUint 4 buffer offset false;
      match indexedDefinition !! variantIndex with
      | None => Err TypeError
      | Some (variantType, variant) =>
          '(variantValue, variantOffset) ← variantType buffer (offset + 4) config;
          Ok (EnumVariantValue variant variantValue, variantOffset)
      end
  end.

(** ** The encoder *)

Definition Encoder : Type := Value -> Z -> BincodeConfig -> Enc Z.

(** [for (let index = 0; index < tupleType.length; index += 1)], encoding
    [tupleValue[index]] under the element schema of the same position. *)
Fixpoint encode_each (es : list Encoder) (index : nat) (tupleValue : Value) (offset : Z)
    (config : BincodeConfig) : Enc Z :=
  match es with
  | [] => mret offset
  | e :: es' =>
      element ← lift (get_index tupleValue index);
      offset' ← e element offset config;
      encode_each es' (S index) tupleValue offset' config
  end.

(** [for (let index = 0; index < arrayType.size; index += 1)]: [n] more
    elements from position [index] on, all under the element schema. *)
Fixpoint encode_times (n : nat) (e : Encoder) (index : nat) (arrayValue : Value)
    (offset : Z) (config : BincodeConfig) : Enc Z :=
  match n with
  | O => mret offset
  | S n' =>
      element ← lift (get_index arrayValue index);
      offset' ← e element offset config;
      encode_times n' e (S index) arrayValue offset' config
  end.

(** [for (const field in structType)], encoding [structValue[field]]. *)
Fixpoint encode_fields (fs : list (string * Encoder)) (structValue : Value) (offset : Z)
    (config : BincodeConfig) : Enc Z :=
  match fs with
  | [] => mret offset
  | (field, e) :: fs' =>
      fieldValue ← lift (get_field structValue field);
      offset' ← e fieldValue offset config;
      encode_fields fs' structValue offset' config
  end.

(** [for (const element of collectionValue)]. *)
Fixpoint encode_elements (e : Encoder) (elements : list Value) (offset : Z)
    (config : BincodeConfig) : Enc Z :=
  match elements with
  | [] => mret offset
  | element :: elements' =>
      offset' ← e element offset config;
      encode_elements e elements' offset' config
  end.

(** [enumValue[VARIANT]] and [enumValue[VALUE]]: the two slots of an enum
    value; on anything else that is not [undefined] both reads give
    [undefined], and the variant is then looked up under that name. *)
Definition enum_slots (enumValue : Value) : result (string * Value) :=
  match enumValue with
  | VEnum variant value => Ok (variant, value)
  | VUndef => Err TypeError
  | _ => Ok ("undefined"%string, VUndef)
  end.

(** The elements a collection value iterates over, after its [length] went
    through [BigInt]. *)
Definition collection_elements (collectionValue : Value) : result (list Value) :=
  match collectionValue with
  | VArr elements => Ok elements
  | VObj props => if props !! "length"%string is Some _ then Err Unmodelled else Err TypeError
  | VStr _ => Err Unmodelled
  | VUndef | VNum _ | VBig _ | VBool _ | VEnum _ _ => Err TypeError
  end.

Fixpoint encode (type : Ty) (value : Value) (offset : Z) (config : BincodeConfig)
    {struct type} : Enc Z :=
  let isLittleEndian := isLittleEndian config in
  match type with
  | TypeKindMarker kind =>
      match kind with
      | K_unit => mret offset
      | K_u8 | K_i8 =>
          setInteger 1 offset value isLittleEndian;; mret (offset + 1)
      | K_u16 | K_i16 =>
          setInteger 2 offset value isLittleEndian;; mret (offset + 2)
      | K_u32 | K_i32 =>
          setInteger 4 offset value isLittleEndian;; mret (offset + 4)
      | K_u64 | K_i64 =>
          setBigInteger offset value isLittleEndian;; mret (offset + 8)
      | K_u128 | K_i128 | K_f16 | K_f128 => throw (Thrown "unimplemented")
      | K_f32 =>
          setFloat 24 128 4 offset value isLittleEndian;; mret (offset + 4)
      | K_f64 =>
          setFloat 53 1024 8 offset value isLittleEndian;; mret (offset + 8)
      | K_bool =>
          setInteger 1 offset value isLittleEndian;; mret (offset + 1)
      | K_String =>
          encoded ← lift (TextEncoder_encode value);
          setBigInteger offset (VBig (Z.of_nat (length encoded))) isLittleEndian;;
          view_set (offset + 8) encoded;;
          mret (offset + 8 + Z.of_nat (length encoded))
      end
  | Tuple elements =>
      match elements with
      | [element] => encode element value offset config
      | _ => encode_each (encode <$> elements) 0 value offset config
      end
  | Array element size =>
      encode_times (Z.to_nat size) (encode element) 0 value offset config
  | Struct fields =>
      encode_fields (enumerate ((fun f => (f.1, encode f.2)) <$> fields)) value offset config
  | Enum variants =>
      '(name, variantValue) ← lift (enum_slots value);
      match get_own ((fun v => (v.1, (v.2.1, encode v.2.2))) <$> variants) name with
      | None => throw (if inherited name then Unmodelled else TypeError)
      | Some (variantIndex, variant) =>
          setInteger 4 offset (VNum (of_Z variantIndex)) isLittleEndian;;
          variant variantValue (offset + 4) config
      end
  | Collection element =>
      elements ← lift (collection_elements value);
      setBigInteger offset (VBig (Z.of_nat (length elements))) isLittleEndian;;
      encode_elements (encode element) elements (offset + 8) config
  end.

(** * Vocabulary of the statements *)

(** ** What a write touches, what a read depends on *)

(** [frame buffer offset buffer' offset']: going from [buffer] to [buffer']
    kept the length and every byte outside [offset, offset'). *)
Definition frame (buffer : ArrayBuffer) (offset : Z) (buffer' : ArrayBuffer) (offset' : Z) : Prop :=
  length buffer' = length buffer /\
  offset <= offset' /\
  forall i : nat, Z.of_nat i < offset \/ offset' <= Z.of_nat i -> buffer' !! i = buffer !! i.

(** An encoder that, when it returns, has written only from the offset it
    was given up to the offset it returns. *)
Definition framed (e : Encoder) : Prop :=
  forall value offset config buffer buffer' offset',
    e value offset config buffer = (buffer', Ok offset') ->
    frame buffer offset buffer' offset'.

(** Two buffers of the same length with the same bytes from [lo] up to [hi]. *)
Definition agree (b1 b2 : ArrayBuffer) (lo hi : Z) : Prop :=
  length b1 = length b2 /\
  forall i : nat, lo <= Z.of_nat i < hi -> b1 !! i = b2 !! i.

(** ** Struct fields in declared order *)

(** The spec's reading of a struct, "encodes fields in the schema's declared
    order": the fields one after the other exactly as the schema lists
    them, for writing and for reading. *)
Definition encode_declared_order (fields : list (string * Ty)) : Encoder :=
  fun structValue offset config =>
    encode_fields ((fun f => (f.1, encode f.2)) <$> fields) structValue offset config.

Definition decode_declared_order (fields : list (string * Ty)) : Decoder :=
  fun buffer offset config =>
    '(decodedObject, offset') ←
      decode_fields ((fun f => (f.1, decode f.2)) <$> fields) ∅ buffer offset config;
    Ok (VObj decodedObject, offset').

(** ** The order in which the fields of a struct are walked *)

(** [index_before f g]: the names of [f] and of [g] are array indices, that
    of [f] the smaller one. *)
Definition index_before {A} (f g : string * A) : Prop :=
  exists m n, array_index f.1 = Some m /\ array_index g.1 = Some n /\ m < n.

(** [walk_order fields walk]: [walk] lists the fields whose names are array
    indices first, by ascending index, and after them the other fields in
    the order the schema declares them. *)
Definition walk_order {A} (fields walk : list (string * A)) : Prop :=
  exists numbered named,
    walk = numbered ++ named /\
    numbered ≡ₚ filter (fun f => is_Some (array_index f.1)) fields /\
    StronglySorted index_before numbered /\
    named = filter (fun f => array_index f.1 = None) fields.

(** [written_in_order walk value offset config buffer outcome]: [outcome] is
    what comes of encoding the properties of [value] one entry of [walk]
    after the other, the first one at [offset] in [buffer], each one under
    the schema of its entry and where the one before it stopped, in the
    buffer that one left; the first property that cannot be read or encoded
    ends the walk with its error. *)
Inductive written_in_order
  : list (string * Ty) -> Value -> Z -> BincodeConfig -> ArrayBuffer
    -> ArrayBuffer * result Z -> Prop :=
| written_all value offset config buffer :
    written_in_order [] value offset config buffer (buffer, Ok offset)
| written_no_field name type walk value offset config buffer e :
    get_field value name = Err e ->
    written_in_order ((name, type) :: walk) value offset config buffer (buffer, Err e)
| written_throws name type walk value offset config buffer fieldValue buffer' e :
    get_field value name = Ok fieldValue ->
    encode type fieldValue offset config buffer = (buffer', Err e) ->
    written_in_order ((name, type) :: walk) value offset config buffer (buffer', Err e)
| written_next name type walk value offset config buffer fieldValue buffer' offset' outcome :
    get_field value name = Ok fieldValue ->
    encode type fieldValue offset config buffer = (buffer', Ok offset') ->
    written_in_order walk value offset' config buffer' outcome ->
    written_in_order ((name, type) :: walk) value offset config buffer outcome.

(** [read_in_order walk decodedObject buffer offset config outcome]:
    [outcome] is what comes of decoding one entry of [walk] after the other,
    the first one at [offset], each one under the schema of its entry and
    where the one before it stopped, and of assigning each decoded value to
    [decodedObject] under the name of its entry; the first entry that cannot
    be decoded ends the walk with its error. *)
Inductive read_in_order
  : list (string * Ty) -> gmap string Value -> ArrayBuffer -> Z -> BincodeConfig
    -> result (Value * Z) -> Prop :=
| read_all decodedObject buffer offset config :
    read_in_order [] decodedObject buffer offset config (Ok (VObj decodedObject, offset))
| read_throws name type walk decodedObject buffer offset config e :
    decode type buffer offset config = Err e ->
    read_in_order ((name, type) :: walk) decodedObject buffer offset config (Err e)
| read_next name type walk decodedObject buffer offset config fieldValue offset' outcome :
    decode type buffer offset config = Ok (fieldValue, offset') ->
    read_in_order walk (set_property decodedObject name fieldValue) buffer offset' config
      outcome ->
    read_in_order ((name, type) :: walk) decodedObject buffer offset config outcome.

(** ** Byte values *)

(** The byte at a position of a value, 0 where the value has no element. *)
Definition byte_at (bytes : list Z) (index : nat) : Z := default 0 (bytes !! index).

Definition numbers (bytes : list Z) : list Value := (fun b => VNum (of_Z b)) <$> bytes.

(** ** Conforming values and the descriptors the round trip holds on *)

Fixpoint all_of {A} (P : A -> Prop) (l : list A) : Prop :=
  match l with
  | [] => True
  | x :: l' => P x /\ all_of P l'
  end.

Fixpoint all2_of {A B} (P : A -> B -> Prop) (l : list A) (k : list B) : Prop :=
  match l, k with
  | [], [] => True
  | x :: l', y :: k' => P x y /\ all2_of P l' k'
  | _, _ => False
  end.

(** A value conforms to a descriptor when it has the shape the descriptor
    asks for: an integer in the range of its width (a number below 64 bits,
    a bigint at 64), the element itself for a tuple of one, a sequence of
    conforming elements for the other tuples, for an array (of the declared
    size) and for a collection, an object with exactly the fields of the
    struct, an enum value of a declared variant. *)
Fixpoint conforms (type : Ty) (value : Value) {struct type} : Prop :=
  match type with
  | TypeKindMarker kind =>
      match kind with
      | K_unit => value = VObj ∅
      | K_u8 => exists z, value = VNum (of_Z z) /\ 0 <= z < 2 ^ 8
      | K_u16 => exists z, value = VNum (of_Z z) /\ 0 <= z < 2 ^ 16
      | K_u32 => exists z, value = VNum (of_Z z) /\ 0 <= z < 2 ^ 32
      | K_u64 => exists z, value = VBig z /\ 0 <= z < 2 ^ 64
      | K_i8 => exists z, value = VNum (of_Z z) /\ - 2 ^ 7 <= z < 2 ^ 7
      | K_i16 => exists z, value = VNum (of_Z z) /\ - 2 ^ 15 <= z < 2 ^ 15
      | K_i32 => exists z, value = VNum (of_Z z) /\ - 2 ^ 31 <= z < 2 ^ 31
      | K_i64 => exists z, value = VBig z /\ - 2 ^ 63 <= z < 2 ^ 63
      | K_f32 | K_f64 => exists f, value = VNum f
      | K_bool => exists b, value = VBool b
      | K_String => exists s, value = VStr s
      | K_u128 | K_i128 | K_f16 | K_f128 => False
      end
  | Tuple elements =>
      match elements with
      | [element] => conforms element value
      | _ => exists tupleValue, value = VArr tupleValue /\ all2_of conforms elements tupleValue
      end
  | Array element size =>
      exists arrayValue, value = VArr arrayValue /\
        Z.of_nat (length arrayValue) = size /\ Forall (conforms element) arrayValue
  | Struct fields =>
      exists props, value = VObj props /\
        (forall key, is_Some (props !! key) -> key ∈ fields.*1) /\
        all_of (fun f => exists fieldValue,
                    props !! f.1 = Some fieldValue /\ conforms f.2 fieldValue) fields
  | Enum variants =>
      exists name variantValue, value = VEnum name variantValue /\
        match get_own ((fun v => (v.1, conforms v.2.2)) <$> variants) name with
        | Some payload_conforms => payload_conforms variantValue
        | None => False
        end
  | Collection element =>
      exists elements, value = VArr elements /\ Forall (conforms element) elements
  end.

(** The descriptors on which [decode] is the inverse of [encode]: the
    fixed-width integers, and the tuples, arrays and structs built from
    such descriptors; enums of such payloads too, with discriminants that
    are distinct and fit 32 bits, but only under a big-endian
    configuration.  A struct field named [__proto__] is excluded: assigning
    it on the decoded object creates no property. *)
Fixpoint plain (config : BincodeConfig) (type : Ty) {struct type} : Prop :=
  match type with
  | TypeKindMarker kind =>
      match kind with
      | K_u8 | K_u16 | K_u32 | K_u64 | K_i8 | K_i16 | K_i32 | K_i64 => True
      | _ => False
      end
  | Tuple elements => all_of (plain config) elements
  | Array element size => plain config element
  | Struct fields =>
      ("__proto__"%string ∉ fields.*1) /\ all_of (fun f => plain config f.2) fields
  | Enum variants =>
      endian config = big /\
      NoDup (variants.*2.*1) /\
      all_of (fun v => 0 <= v.2.1 < 2 ^ 32 /\ plain config v.2.2) variants
  | Collection element => False
  end.

(** [decode] undoes [encode] under a descriptor, in any buffer that agrees
    with the one [encode] left on the bytes it wrote. *)
Definition inverse_on (config : BincodeConfig) (type : Ty) : Prop :=
  forall value offset buffer buffer' offset' buffer'',
    conforms type value ->
    encode type value offset config buffer = (buffer', Ok offset') ->
    agree buffer'' buffer' offset offset' ->
    decode type buffer'' offset config = Ok (value, offset').

(** ** What a call of the encoder leaves, what a call of the decoder reads *)

(** An encoder that, whatever its outcome, keeps the length of the buffer
    and every byte before the offset it was given. *)
Definition keeps_prefix (e : Encoder) : Prop :=
  forall value offset config buffer buffer' (r : result Z),
    e value offset config buffer = (buffer', r) ->
    length buffer' = length buffer /\
    forall i : nat, Z.of_nat i < offset -> buffer' !! i = buffer !! i.

(** An encoder every returning call of which takes the buffer and offset it
    was given to a buffer and offset related to them by [R]. *)
Definition returns_in (R : ArrayBuffer -> Z -> ArrayBuffer -> Z -> Prop) (e : Encoder)
  : Prop :=
  forall value offset config buffer buffer' offset',
    e value offset config buffer = (buffer', Ok offset') -> R buffer offset buffer' offset'.

(** The offsets of a returning call, against the bounds of the buffer: the
    offset does not go back, and when it advanced the whole range from the
    first to the last offset lies inside the buffer. *)
Definition within (buffer : ArrayBuffer) (offset : Z) (buffer' : ArrayBuffer) (offset' : Z)
  : Prop :=
  length buffer' = length buffer /\
  offset <= offset' /\
  (offset < offset' -> 0 <= offset /\ offset' <= byteLength buffer).

(** A cursor that did not go back and, when [inside] is asked for and the
    cursor moved, ran over bytes of the buffer only. *)
Definition advance (inside : bool) (buffer : ArrayBuffer) (offset offset' : Z) : Prop :=
  offset <= offset' /\
  (inside = true -> offset < offset' -> 0 <= offset /\ offset' <= byteLength buffer).

Definition advances (inside : bool) (d : Decoder) : Prop :=
  forall buffer offset config value offset',
    d buffer offset config = Ok (value, offset') -> advance inside buffer offset offset'.

(** A decoder whose result depends on the bytes between the two cursors
    only. *)
Definition reads_between (d : Decoder) : Prop :=
  forall buffer buffer2 offset config value offset',
    d buffer offset config = Ok (value, offset') ->
    agree buffer2 buffer offset offset' ->
    d buffer2 offset config = Ok (value, offset').

(** ** Kinds of descriptors and of values *)

(** The descriptors with no String in them. *)
Fixpoint string_free (type : Ty) : bool :=
  match type with
  | TypeKindMarker kind => match kind with K_String => false | _ => true end
  | Tuple elements => forallb string_free elements
  | Array element size => string_free element
  | Struct fields => forallb (fun f => string_free f.2) fields
  | Enum variants => forallb (fun v => string_free v.2.2) variants
  | Collection element => string_free element
  end.





(** Text made of ASCII characters only. *)
Definition ascii_text (s : string) : Prop :=
  Forall (fun b => b < 128) (utf8_of_string s).

(** * Lemmas *)

(** ** Induction on descriptors *)

Section Ty_induction.
Variable P : Ty -> Prop.
Hypothesis marker_case : forall kind, P (TypeKindMarker kind).
Hypothesis tuple_case : forall elements, Forall P elements -> P (Tuple elements).
Hypothesis array_case : forall element size, P element -> P (Array element size).
Hypothesis struct_case :
  forall fields, Forall (fun f => P f.2) fields -> P (Struct fields).
Hypothesis enum_case :
  forall variants, Forall (fun v => P v.2.2) variants -> P (Enum variants).
Hypothesis collection_case : forall element, P element -> P (Collection element).

Fixpoint Ty_nested_ind (type : Ty) : P type :=
  match type with
  | TypeKindMarker kind => marker_case kind
  | Tuple elements =>
      tuple_case elements
        ((fix go (l : list Ty) : Forall P l :=
            match l with
            | [] => Forall_nil_2 P
            | t :: l' => Forall_cons_2 P t l' (Ty_nested_ind t) (go l')
            end) elements)
  | Array element size => array_case element size (Ty_nested_ind element)
  | Struct fields =>
      struct_case fields
        ((fix go (l : list (string * Ty)) : Forall (fun f => P f.2) l :=
            match l with
            | [] => Forall_nil_2 _
            | f :: l' => Forall_cons_2 (fun f => P f.2) f l' (Ty_nested_ind f.2) (go l')
            end) fields)
  | Enum variants =>
      enum_case variants
        ((fix go (l : list (string * (Z * Ty))) : Forall (fun v => P v.2.2) l :=
            match l with
            | [] => Forall_nil_2 _
            | v :: l' =>
                Forall_cons_2 (fun v => P v.2.2) v l' (Ty_nested_ind v.2.2) (go l')
            end) variants)
  | Collection element => collection_case element (Ty_nested_ind element)
  end.
End Ty_induction.

(** ** Inversion of the two monads *)

Lemma Enc_bind_Ok {A B} (m : Enc A) (k : A -> Enc B) buffer buffer' (b : B) :
  (m ≫= k) buffer = (buffer', Ok b) ->
  exists a buffer1, m buffer = (buffer1, Ok a) /\ k a buffer1 = (buffer', Ok b).
Proof.
  unfold mbind, Enc_bind. destruct (m buffer) as [buffer1 [a|e]]; [eauto | discriminate].
Qed.

Lemma lift_Ok {A} (r : result A) buffer buffer' (a : A) :
  lift r buffer = (buffer', Ok a) -> r = Ok a /\ buffer' = buffer.
Proof. unfold lift. intros [= -> ->]. done. Qed.

Lemma mret_Ok {A} (x a : A) (buffer buffer' : ArrayBuffer) :
  (mret x : Enc A) buffer = (buffer', Ok a) -> a = x /\ buffer' = buffer.
Proof. intros [= -> ->]. done. Qed.

Lemma throw_Ok {A} e buffer buffer' (a : A) : throw e buffer = (buffer', Ok a) -> False.
Proof. discriminate. Qed.

Ltac inv_enc :=
  repeat match goal with
  | H : (_ ≫= _) _ = (_, Ok _) |- _ =>
      apply Enc_bind_Ok in H; destruct H as (? & ? & ? & H)
  | H : lift _ _ = (_, Ok _) |- _ => apply lift_Ok in H; destruct H as [H ->]
  | H : mret _ _ = (_, Ok _) |- _ => apply mret_Ok in H; destruct H as [-> ->]
  | H : throw _ _ = (_, Ok _) |- _ => destruct (throw_Ok _ _ _ _ H)
  end.

(** ** Byte strings of integers *)

Lemma length_le_bytes w z : length (le_bytes w z) = w.
Proof. revert z. induction w as [|w IH]; intros z; simpl; [done | by rewrite IH]. Qed.

Lemma length_int_bytes e w z : length (int_bytes e w z) = w.
Proof.
  unfold int_bytes. destruct e; [| rewrite length_rev]; apply length_le_bytes.
Qed.

Lemma int_bytes_1 e z : int_bytes e 1 z = [z mod 256].
Proof. by destruct e. Qed.

Lemma le_value_le_bytes w z : le_value (le_bytes w z) = z mod 256 ^ Z.of_nat w.
Proof.
  revert z. induction w as [|w IH]; intros z.
  - simpl. by rewrite Z.mod_1_r.
  - cbn [le_bytes le_value]. rewrite IH, Nat2Z.inj_succ, Z.pow_succ_r by lia.
    rewrite Z.rem_mul_r; [done | lia | apply Z.pow_pos_nonneg; lia].
Qed.

Lemma int_value_int_bytes e w z : int_value e (int_bytes e w z) = z mod 256 ^ Z.of_nat w.
Proof.
  unfold int_value, int_bytes. destruct e; [| rewrite rev_involutive]; apply le_value_le_bytes.
Qed.

Lemma signed_mod w z :
  (0 < w)%nat ->
  - 2 ^ (8 * Z.of_nat w - 1) <= z < 2 ^ (8 * Z.of_nat w - 1) ->
  signed w (z mod 256 ^ Z.of_nat w) = z.
Proof.
  intros Hw Hz. unfold signed.
  change 256 with (2 ^ 8). rewrite <- Z.pow_mul_r by lia.
  set (H := 2 ^ (8 * Z.of_nat w - 1)) in *.
  assert (HM : 2 ^ (8 * Z.of_nat w) = 2 * H).
  { unfold H. rewrite <- Z.pow_succ_r by lia. f_equal. lia. }
  rewrite HM.
  destruct (Z.le_gt_cases 0 z).
  - rewrite Z.mod_small by lia. destruct (Z.ltb_spec z H); lia.
  - assert (Hmod : z mod (2 * H) = z + 2 * H).
    { symmetry. apply (Z.mod_unique _ _ (-1)); lia. }
    rewrite Hmod. destruct (Z.ltb_spec (z + 2 * H) H); lia.
Qed.

Lemma trunc_of_Z z : Z.abs z < 2 ^ 53 -> trunc (of_Z z) = z.
Proof.
  intros Hz. unfold of_Z.
  destruct (Z.eqb_spec z 0) as [-> | Hnz]; [done |].
  destruct (Z.ltb_spec (Z.abs z) (2 ^ 53)) as [_ | ?]; [| lia].
  set (k := 52 - Z.log2 (Z.abs z)).
  assert (Hk : 0 <= k).
  { assert (Z.log2 (Z.abs z) < 53) by (apply Z.log2_lt_pow2; lia). lia. }
  assert (Hpos : 0 < Z.abs z * 2 ^ k) by (apply Z.mul_pos_pos; [lia | by apply Z.pow_pos_nonneg]).
  unfold trunc. rewrite Z2Pos.id by done.
  assert (Hmag : (if 0 <=? - k then Z.abs z * 2 ^ k * 2 ^ (- k) else Z.abs z * 2 ^ k / 2 ^ (- - k))
                 = Z.abs z).
  { destruct (Z.leb_spec 0 (- k)).
    - replace k with 0 by lia. simpl. lia.
    - rewrite Z.opp_involutive. apply Z.div_mul. apply Z.pow_nonzero; lia. }
  rewrite Hmag. unfold cond_Zopp. destruct (Z.ltb_spec z 0); lia.
Qed.

(** ** Writes *)

Lemma frame_refl buffer offset : frame buffer offset buffer offset.
Proof. split; [done | split; [lia | done]]. Qed.

Lemma frame_trans b0 o0 b1 o1 b2 o2 :
  frame b0 o0 b1 o1 -> frame b1 o1 b2 o2 -> frame b0 o0 b2 o2.
Proof.
  intros (Hl1 & Ho1 & Hb1) (Hl2 & Ho2 & Hb2).
  split; [congruence | split; [lia |]].
  intros i Hi. rewrite Hb2 by lia. apply Hb1. lia.
Qed.

Lemma view_set_Ok offset bytes buffer buffer' u :
  view_set offset bytes buffer = (buffer', Ok u) ->
  0 <= offset /\ offset + Z.of_nat (length bytes) <= byteLength buffer /\
  buffer' = take (Z.to_nat offset) buffer ++ bytes
              ++ drop (Z.to_nat offset + length bytes) buffer.
Proof.
  unfold view_set, in_view.
  destruct (0 <=? offset) eqn:H0; simpl; [| discriminate].
  destruct (offset + Z.of_nat (length bytes) <=? byteLength buffer) eqn:H1; [| discriminate].
  intros [= <-]. split; [lia | split; [lia | done]].
Qed.

Lemma view_set_frame offset bytes buffer buffer' u :
  view_set offset bytes buffer = (buffer', Ok u) ->
  frame buffer offset buffer' (offset + Z.of_nat (length bytes)).
Proof.
  intros (H0 & H1 & ->)%view_set_Ok. unfold byteLength in H1.
  split; [| split].
  - rewrite !length_app, length_take, length_drop. lia.
  - lia.
  - intros i Hi. destruct Hi as [Hi | Hi].
    + rewrite lookup_app_l by (rewrite length_take; lia).
      apply lookup_take_lt. lia.
    + rewrite lookup_app_r by (rewrite length_take; lia).
      rewrite lookup_app_r by (rewrite length_take; lia).
      rewrite lookup_drop, length_take. f_equal. lia.
Qed.

Lemma view_set_in_view offset bytes buffer :
  0 <= offset -> offset + Z.of_nat (length bytes) <= byteLength buffer ->
  view_set offset bytes buffer
  = (take (Z.to_nat offset) buffer ++ bytes
       ++ drop (Z.to_nat offset + length bytes) buffer, Ok tt).
Proof.
  intros H0 H1. unfold view_set, in_view.
  destruct (Z.leb_spec 0 offset); [| lia].
  destruct (Z.leb_spec (offset + Z.of_nat (length bytes)) (byteLength buffer)); [done | lia].
Qed.

Lemma byteLength_splice (buffer : ArrayBuffer) (o : nat) (bytes : list Z) :
  (o + length bytes <= length buffer)%nat ->
  byteLength (take o buffer ++ bytes ++ drop (o + length bytes) buffer) = byteLength buffer.
Proof.
  intros H. unfold byteLength. rewrite !length_app, length_take, length_drop. lia.
Qed.

Lemma splice_splice (buffer : ArrayBuffer) (o : nat) (bs1 bs2 : list Z) :
  (o + length bs1 + length bs2 <= length buffer)%nat ->
  take (o + length bs1) (take o buffer ++ bs1 ++ drop (o + length bs1) buffer) ++ bs2
    ++ drop (o + length bs1 + length bs2) (take o buffer ++ bs1 ++ drop (o + length bs1) buffer)
  = take o buffer ++ (bs1 ++ bs2) ++ drop (o + length (bs1 ++ bs2)) buffer.
Proof.
  intros Hlen.
  assert (Ho : length (take o buffer) = o) by (rewrite length_take; lia).
  rewrite (app_assoc (take o buffer) bs1 (drop _ _)).
  rewrite take_app_length' by (rewrite length_app; lia).
  rewrite drop_app_ge by (rewrite length_app; lia).
  rewrite drop_drop, !length_app, Ho, <- !app_assoc.
  do 4 f_equal. lia.
Qed.

Lemma setInteger_frame w offset value e buffer buffer' u :
  setInteger w offset value e buffer = (buffer', Ok u) ->
  frame buffer offset buffer' (offset + Z.of_nat w).
Proof.
  unfold setInteger. destruct (offset <? 0); [intros []%throw_Ok |].
  intros H. inv_enc. apply view_set_frame in H. by rewrite length_int_bytes in H.
Qed.

Lemma setBigInteger_frame offset value e buffer buffer' u :
  setBigInteger offset value e buffer = (buffer', Ok u) ->
  frame buffer offset buffer' (offset + 8).
Proof.
  unfold setBigInteger. destruct (offset <? 0); [intros []%throw_Ok |].
  intros H. inv_enc. apply view_set_frame in H. by rewrite length_int_bytes in H.
Qed.

Lemma setFloat_frame prec emax w offset value e buffer buffer' u :
  setFloat prec emax w offset value e buffer = (buffer', Ok u) ->
  frame buffer offset buffer' (offset + Z.of_nat w).
Proof.
  unfold setFloat. destruct (offset <? 0); [intros []%throw_Ok |].
  intros H. inv_enc. apply view_set_frame in H. by rewrite length_int_bytes in H.
Qed.

Lemma encode_each_frame es index tupleValue offset config buffer buffer' offset' :
  Forall framed es ->
  encode_each es index tupleValue offset config buffer = (buffer', Ok offset') ->
  frame buffer offset buffer' offset'.
Proof.
  intros Hes. revert index offset buffer.
  induction Hes as [|e es He _ IH]; intros index offset buffer H; simpl in H.
  - inv_enc. apply frame_refl.
  - inv_enc. eapply frame_trans; [by eapply He | by eapply IH].
Qed.

Lemma encode_times_frame n e index arrayValue offset config buffer buffer' offset' :
  framed e ->
  encode_times n e index arrayValue offset config buffer = (buffer', Ok offset') ->
  frame buffer offset buffer' offset'.
Proof.
  intros He. revert index offset buffer.
  induction n as [|n IH]; intros index offset buffer H; simpl in H.
  - inv_enc. apply frame_refl.
  - inv_enc. eapply frame_trans; [by eapply He | by eapply IH].
Qed.

Lemma encode_fields_frame (fs : list (string * Encoder)) structValue offset config
    buffer buffer' offset' :
  Forall (fun f => framed f.2) fs ->
  encode_fields fs structValue offset config buffer = (buffer', Ok offset') ->
  frame buffer offset buffer' offset'.
Proof.
  intros Hfs. revert offset buffer.
  induction Hfs as [|[field e] fs He _ IH]; intros offset buffer H; simpl in H.
  - inv_enc. apply frame_refl.
  - inv_enc. eapply frame_trans; [by eapply He | by eapply IH].
Qed.

Lemma encode_elements_frame e elements offset config buffer buffer' offset' :
  framed e ->
  encode_elements e elements offset config buffer = (buffer', Ok offset') ->
  frame buffer offset buffer' offset'.
Proof.
  intros He. revert offset buffer.
  induction elements as [|x elements IH]; intros offset buffer H; simpl in H.
  - inv_enc. apply frame_refl.
  - inv_enc. eapply frame_trans; [by eapply He | by eapply IH].
Qed.

(** ** Enumeration order *)

Lemma elem_of_insert_index {A} (i : Z) (x : A) l p :
  p ∈ insert_index i x l <-> p = (i, x) \/ p ∈ l.
Proof.
  induction l as [|[j y] l IH]; simpl.
  - rewrite list_elem_of_singleton, elem_of_nil. tauto.
  - destruct (i <? j); rewrite !elem_of_cons; [tauto |]. rewrite IH. tauto.
Qed.

Lemma elem_of_integer_keyed {A} (entries : list (string * A)) i e :
  (i, e) ∈ integer_keyed entries <-> e ∈ entries /\ array_index e.1 = Some i.
Proof.
  induction entries as [|e0 entries IH]; simpl.
  - rewrite !elem_of_nil. tauto.
  - destruct (array_index e0.1) as [j|] eqn:Hj.
    + rewrite elem_of_insert_index, IH, elem_of_cons. split.
      * intros [[= -> ->] | [? ?]]; auto.
      * intros [[-> | ?] ?]; [left; congruence | auto].
    + rewrite IH, elem_of_cons. split; [tauto |].
      intros [[-> | ?] ?]; [congruence | auto].
Qed.

Lemma elem_of_enumerate {A} (entries : list (string * A)) e :
  e ∈ enumerate entries <-> e ∈ entries.
Proof.
  unfold enumerate, string_keyed.
  rewrite elem_of_app, list_elem_of_fmap, list_elem_of_filter. split.
  - intros [([i e'] & -> & He) | [_ ?]]; [| done].
    by apply elem_of_integer_keyed in He as [? _].
  - intros He. destruct (array_index e.1) as [i|] eqn:Hi; [left | by right].
    exists (i, e). split; [done |]. by apply elem_of_integer_keyed.
Qed.

Lemma Forall_enumerate {A} (P : string * A -> Prop) (entries : list (string * A)) :
  Forall P entries -> Forall P (enumerate entries).
Proof.
  rewrite !Forall_forall. intros H e He. apply H. by apply elem_of_enumerate.
Qed.

Lemma elem_of_enumerate_keys {A} (entries : list (string * A)) key :
  key ∈ (enumerate entries).*1 <-> key ∈ entries.*1.
Proof.
  rewrite !list_elem_of_fmap. split; intros (e & -> & He); exists e;
    (split; [done |]); by apply elem_of_enumerate.
Qed.

Lemma get_own_elem_of {A} (entries : list (string * A)) key x :
  get_own entries key = Some x -> (key, x) ∈ entries.
Proof.
  induction entries as [|[k y] entries IH]; simpl; [done |].
  destruct (String.eqb_spec k key) as [-> | _].
  - intros [= ->]. apply elem_of_cons. by left.
  - intros H. apply elem_of_cons. right. by apply IH.
Qed.

Lemma get_own_fmap {A B} (g : A -> B) (entries : list (string * A)) key :
  get_own ((fun e => (e.1, g e.2)) <$> entries) key = g <$> get_own entries key.
Proof.
  induction entries as [|[k x] entries IH]; simpl; [done |].
  by destruct (String.eqb k key).
Qed.

(** Enumeration commutes with a change of what the entries carry. *)
Lemma insert_index_fmap {A B} (h : A -> B) (i : Z) (x : A) (l : list (Z * A)) :
  (fun p => (p.1, h p.2)) <$> insert_index i x l
  = insert_index i (h x) ((fun p => (p.1, h p.2)) <$> l).
Proof.
  induction l as [|[j y] l IH]; simpl; [done |].
  destruct (i <? j); simpl; [done |]. f_equal. exact IH.
Qed.

Lemma integer_keyed_fmap {A B} (g : A -> B) (entries : list (string * A)) :
  integer_keyed ((fun e => (e.1, g e.2)) <$> entries)
  = (fun p => (p.1, (p.2.1, g p.2.2))) <$> integer_keyed entries.
Proof.
  induction entries as [|e entries IH]; [done |].
  rewrite fmap_cons. cbn [integer_keyed foldr]. fold (integer_keyed entries).
  change (foldr _ [] ((fun e : string * A => (e.1, g e.2)) <$> entries))
    with (integer_keyed ((fun e : string * A => (e.1, g e.2)) <$> entries)).
  rewrite IH. cbn [fst]. destruct (array_index e.1); [| done].
  symmetry. exact (insert_index_fmap (fun e : string * A => (e.1, g e.2)) _ _ _).
Qed.

Lemma enumerate_fmap {A B} (g : A -> B) (entries : list (string * A)) :
  enumerate ((fun e => (e.1, g e.2)) <$> entries)
  = (fun e => (e.1, g e.2)) <$> enumerate entries.
Proof.
  unfold enumerate. rewrite fmap_app. f_equal.
  - rewrite integer_keyed_fmap, <- !list_fmap_compose. done.
  - unfold string_keyed. induction entries as [|e entries IH]; [done |].
    rewrite !fmap_cons, !filter_cons. cbn [fst]. rewrite IH.
    destruct (decide (array_index e.1 = None)); by rewrite ?fmap_cons.
Qed.

Lemma enumerate_cons_Permutation {A} (e : string * A) entries :
  enumerate (e :: entries) ≡ₚ e :: enumerate entries.
Proof.
  unfold enumerate, string_keyed. simpl. rewrite filter_cons.
  destruct (array_index e.1) as [i|] eqn:Hi.
  - rewrite decide_False by done.
    assert (Hins : forall l : list (Z * (string * A)), (insert_index i e l).*2 ≡ₚ e :: l.*2).
    { induction l as [|[j y] l IH]; simpl; [done |].
      destruct (i <? j); simpl; [done |]. rewrite IH. apply Permutation_swap. }
    by rewrite Hins.
  - rewrite decide_True by done. by rewrite <- Permutation_middle.
Qed.

Lemma enumerate_Permutation {A} (entries : list (string * A)) :
  enumerate entries ≡ₚ entries.
Proof.
  induction entries as [|e entries IH]; [done |].
  by rewrite enumerate_cons_Permutation, IH.
Qed.

Lemma integer_keyed_none {A} (entries : list (string * A)) :
  Forall (fun e => array_index e.1 = None) entries -> integer_keyed entries = [].
Proof.
  induction 1 as [|e entries He _ IH]; simpl; [done |]. by rewrite He.
Qed.

Lemma string_keyed_all {A} (entries : list (string * A)) :
  Forall (fun e => array_index e.1 = None) entries -> string_keyed entries = entries.
Proof.
  unfold string_keyed. induction 1 as [|e entries He _ IH]; [done |].
  rewrite filter_cons_True by done. by rewrite IH.
Qed.

Lemma enumerate_no_index {A} (entries : list (string * A)) :
  Forall (fun e => array_index e.1 = None) entries -> enumerate entries = entries.
Proof.
  intros H. unfold enumerate. by rewrite integer_keyed_none, string_keyed_all.
Qed.

(** The reverse index resolves a discriminant that one variant only has. *)
Lemma indexed_lookup {A} (L : list (string * (Z * A))) (acc : gmap Z (A * string)) name d x :
  NoDup (L.*2.*1) ->
  (name, (d, x)) ∈ L ->
  foldl (fun indexedDefinition entry =>
           <[entry.2.1 := (entry.2.2, entry.1)]> indexedDefinition) acc L !! d
  = Some (x, name).
Proof.
  revert acc. induction L as [|e L IH]; intros acc Hnd Hin.
  - by apply elem_of_nil in Hin.
  - rewrite !fmap_cons in Hnd. apply NoDup_cons in Hnd as [Hfresh Hnd].
    apply elem_of_cons in Hin as [<- | Hin]; simpl.
    + clear IH. revert acc. induction L as [|e' L IH']; intros acc; simpl.
      * apply lookup_insert_eq.
      * rewrite !fmap_cons, not_elem_of_cons in Hfresh. destruct Hfresh as [Hne Hfresh].
        rewrite !fmap_cons in Hnd. apply NoDup_cons in Hnd as [_ Hnd].
        rewrite insert_insert_ne by done. by apply IH'.
    + by apply IH.
Qed.

(** ** Names that are array indices *)

Lemma digit_range a d : digit a = Some d -> 0 <= d <= 9.
Proof.
  unfold digit. destruct (_ && _) eqn:H; [| done]. intros [= <-].
  apply andb_true_iff in H as [?%Z.leb_le ?%Z.leb_le]. lia.
Qed.

Lemma digit_inj a b d : digit a = Some d -> digit b = Some d -> a = b.
Proof.
  unfold digit. destruct (_ && _); [| done]. destruct (_ && _); [| done].
  intros [= Ha] [= Hb].
  rewrite <- (ascii_N_embedding a), <- (ascii_N_embedding b). f_equal. lia.
Qed.

Lemma digits_value_bounds s acc n :
  digits_value s acc = Some n ->
  acc * 10 ^ Z.of_nat (String.length s) <= n < (acc + 1) * 10 ^ Z.of_nat (String.length s).
Proof.
  revert acc. induction s as [|a s IH]; intros acc; simpl.
  - intros [= <-]. lia.
  - destruct (digit a) as [d|] eqn:Hd; [| done]. simpl. intros H%IH.
    apply digit_range in Hd.
    replace (Z.of_nat (S (String.length s))) with (Z.succ (Z.of_nat (String.length s))) by lia.
    rewrite Z.pow_succ_r by lia.
    assert (0 < 10 ^ Z.of_nat (String.length s)) by (apply Z.pow_pos_nonneg; lia).
    nia.
Qed.

Lemma digits_value_inj s1 s2 a1 a2 n :
  String.length s1 = String.length s2 ->
  digits_value s1 a1 = Some n -> digits_value s2 a2 = Some n ->
  s1 = s2 /\ a1 = a2.
Proof.
  revert s2 a1 a2. induction s1 as [|c1 s1 IH]; intros [|c2 s2] a1 a2; simpl; try done.
  - by intros _ [= <-] [= <-].
  - intros [= Hlen].
    destruct (digit c1) as [d1|] eqn:Hd1; [| done].
    destruct (digit c2) as [d2|] eqn:Hd2; [| done]. simpl.
    intros H1 H2. destruct (IH _ _ _ Hlen H1 H2) as [-> Hacc].
    pose proof (digit_range _ _ Hd1). pose proof (digit_range _ _ Hd2).
    assert (d1 = d2) by lia. subst d2.
    split; [| lia]. f_equal. by eapply digit_inj.
Qed.

Lemma array_index_Some key n :
  array_index key = Some n ->
  (key = "0"%string /\ n = 0) \/
  (exists a s d, key = String a s /\ digit a = Some d /\ 1 <= d /\ digits_value s d = Some n).
Proof.
  destruct key as [|a s]; [done |].
  destruct a as [[] [] [] [] [] [] [] []];
    try (cbn; discriminate);
    try (destruct s; [intros [= <-]; by left | discriminate]);
    (intros H; right; do 3 eexists; split; [reflexivity |];
     unfold array_index in H; cbn [digits_value] in H;
     match type of H with context [digit ?c] =>
       let d := eval vm_compute in (digit c) in
       change (digit c) with d in H |- *
     end;
     split; [reflexivity |]; split; [lia |];
     cbn [mbind option_bind] in H;
     destruct (digits_value s _) as [m|]; [| done]; simpl in H;
     by destruct (m <=? _); simplify_eq).
Qed.

Lemma digits_length s d n l :
  1 <= d <= 9 -> digits_value s d = Some n -> l = String.length s ->
  10 ^ Z.of_nat l <= n < 10 ^ (Z.of_nat l + 1).
Proof.
  intros Hd H%digits_value_bounds ->.
  rewrite Z.pow_add_r, Z.pow_1_r by lia.
  assert (0 < 10 ^ Z.of_nat (String.length s)) by (apply Z.pow_pos_nonneg; lia).
  nia.
Qed.

(** An array index has one name only, its canonical numeral. *)
Lemma array_index_inj key1 key2 n :
  array_index key1 = Some n -> array_index key2 = Some n -> key1 = key2.
Proof.
  intros [[-> ->] | (a1 & s1 & d1 & -> & Ha1 & Hd1 & H1)]%array_index_Some
         [[-> Hn] | (a2 & s2 & d2 & -> & Ha2 & Hd2 & H2)]%array_index_Some.
  - done.
  - pose proof (digit_range _ _ Ha2).
    pose proof (digits_length s2 d2 _ _ ltac:(lia) H2 eq_refl) as [Hlo _].
    assert (0 < 10 ^ Z.of_nat (String.length s2)) by (apply Z.pow_pos_nonneg; lia). lia.
  - subst n. pose proof (digit_range _ _ Ha1).
    pose proof (digits_length s1 d1 _ _ ltac:(lia) H1 eq_refl) as [Hlo _].
    assert (0 < 10 ^ Z.of_nat (String.length s1)) by (apply Z.pow_pos_nonneg; lia). lia.
  - pose proof (digit_range _ _ Ha1). pose proof (digit_range _ _ Ha2).
    pose proof (digits_length s1 d1 _ _ ltac:(lia) H1 eq_refl) as [Hlo1 Hhi1].
    pose proof (digits_length s2 d2 _ _ ltac:(lia) H2 eq_refl) as [Hlo2 Hhi2].
    assert (Hlen : String.length s1 = String.length s2).
    { assert (Z.of_nat (String.length s1) < Z.of_nat (String.length s2) + 1).
      { apply (Z.pow_lt_mono_r_iff 10); lia. }
      assert (Z.of_nat (String.length s2) < Z.of_nat (String.length s1) + 1).
      { apply (Z.pow_lt_mono_r_iff 10); lia. }
      lia. }
    destruct (digits_value_inj _ _ _ _ _ Hlen H1 H2) as [-> ->].
    f_equal. by eapply digit_inj.
Qed.

(** ** The enumeration order is the walk order *)

Lemma insert_index_Permutation {A} (i : Z) (x : A) (l : list (Z * A)) :
  insert_index i x l ≡ₚ (i, x) :: l.
Proof.
  induction l as [|[j y] l IH]; simpl; [done |].
  destruct (i <? j); [done |]. rewrite IH. apply Permutation_swap.
Qed.

Lemma integer_keyed_Permutation {A} (entries : list (string * A)) :
  (integer_keyed entries).*2 ≡ₚ filter (fun f => is_Some (array_index f.1)) entries.
Proof.
  induction entries as [|e entries IH]; [done |].
  cbn [integer_keyed foldr]. fold (integer_keyed entries). rewrite filter_cons.
  destruct (array_index e.1) as [i|] eqn:Hi.
  - rewrite decide_True by done. rewrite insert_index_Permutation. simpl. by rewrite IH.
  - rewrite decide_False by (by intros [? ?]). done.
Qed.

Lemma insert_index_sorted {A} (i : Z) (x : A) (l : list (Z * A)) :
  StronglySorted (fun p q => p.1 < q.1) l -> i ∉ l.*1 ->
  StronglySorted (fun p q => p.1 < q.1) (insert_index i x l).
Proof.
  induction 1 as [|[j y] l Hl IH Hj]; intros Hi; simpl.
  - repeat constructor.
  - rewrite fmap_cons, not_elem_of_cons in Hi. destruct Hi as [Hij Hi]. simpl in Hij.
    destruct (Z.ltb_spec i j).
    + constructor; [by constructor |]. constructor; [done |].
      eapply Forall_impl; [exact Hj |]. simpl. intros; lia.
    + constructor; [by apply IH |].
      apply Forall_forall. intros p [-> | Hp]%elem_of_insert_index; [simpl; lia |].
      rewrite Forall_forall in Hj. by apply Hj.
Qed.

Lemma integer_keyed_sorted {A} (entries : list (string * A)) :
  NoDup entries.*1 -> StronglySorted (fun p q => p.1 < q.1) (integer_keyed entries).
Proof.
  induction entries as [|e entries IH]; [constructor |].
  rewrite fmap_cons, NoDup_cons. intros [Hnew Hnd].
  cbn [integer_keyed foldr]. fold (integer_keyed entries).
  destruct (array_index e.1) as [i|] eqn:Hi; [| by apply IH].
  apply insert_index_sorted; [by apply IH |].
  intros ([j f] & -> & [Hf Hj]%elem_of_integer_keyed)%list_elem_of_fmap.
  apply Hnew, list_elem_of_fmap. exists f. split; [| done].
  by eapply array_index_inj.
Qed.

Lemma integer_keyed_index_before {A} (entries : list (string * A)) :
  NoDup entries.*1 -> StronglySorted index_before (integer_keyed entries).*2.
Proof.
  intros Hs%integer_keyed_sorted.
  assert (Hi : Forall (fun p => array_index p.2.1 = Some p.1) (integer_keyed entries)).
  { apply Forall_forall. intros [i e] He. by apply elem_of_integer_keyed in He as [_ ?]. }
  induction Hs as [|p l Hl IH Hp]; [constructor |].
  apply Forall_cons in Hi as [Hp1 Hi]. rewrite fmap_cons. constructor; [by apply IH |].
  apply Forall_fmap, Forall_forall. intros q Hq. simpl.
  rewrite Forall_forall in Hp, Hi. exists p.1, q.1. auto.
Qed.

(** The enumeration order of an object, whose names are all different, is
    its walk order. *)
Lemma walk_order_enumerate {A} (entries : list (string * A)) :
  NoDup entries.*1 -> walk_order entries (enumerate entries).
Proof.
  intros Hnd. exists (integer_keyed entries).*2, (string_keyed entries).
  split; [done |]. split; [apply integer_keyed_Permutation |].
  split; [by apply integer_keyed_index_before | done].
Qed.

(** There is one walk order only. *)
Lemma walk_order_unique {A} (fields walk1 walk2 : list (string * A)) :
  walk_order fields walk1 -> walk_order fields walk2 -> walk1 = walk2.
Proof.
  intros (n1 & s1 & -> & Hp1 & Hs1 & ->) (n2 & s2 & -> & Hp2 & Hs2 & ->). f_equal.
  eapply StronglySorted_unique_strong; [| done | done | by rewrite Hp1, Hp2].
  intros f g _ _ (m & n & Hm & Hn & ?) (n' & m' & Hn' & Hm' & ?). simplify_eq. lia.
Qed.

(** Without a name that is an array index, it is the declared order. *)
Lemma walk_order_declared {A} (fields walk : list (string * A)) :
  Forall (fun f => array_index f.1 = None) fields ->
  walk_order fields walk -> walk = fields.
Proof.
  intros Hnames (numbered & named & -> & Hp & _ & ->).
  assert (Hnone : filter (fun f : string * A => is_Some (array_index f.1)) fields = []).
  { clear Hp. induction Hnames as [|f fields Hf _ IH]; [done |].
    rewrite filter_cons, decide_False; [done |]. rewrite Hf. by intros [? ?]. }
  rewrite Hnone in Hp. apply Permutation_nil_r in Hp as ->. simpl.
  by apply string_keyed_all.
Qed.

(** ** The two loops over the fields of a struct *)

Lemma encode_fields_written (walk : list (string * Ty)) value offset config buffer :
  written_in_order walk value offset config buffer
    (encode_fields ((fun f => (f.1, encode f.2)) <$> walk) value offset config buffer).
Proof.
  revert offset buffer. induction walk as [|[name type] walk IH]; intros offset buffer.
  - constructor.
  - rewrite fmap_cons. cbn [encode_fields fst snd].
    unfold mbind at 1, Enc_bind, lift.
    destruct (get_field value name) as [fieldValue|e] eqn:Hfield;
      [| by apply written_no_field].
    unfold mbind, Enc_bind.
    destruct (encode type fieldValue offset config buffer) as [buffer' [offset'|e]] eqn:Henc.
    + eapply written_next; [done | done |]. apply IH.
    + by eapply written_throws.
Qed.

Lemma decode_fields_read (walk : list (string * Ty)) decodedObject buffer offset config :
  read_in_order walk decodedObject buffer offset config
    ('(decodedObject', offset') ←
       decode_fields ((fun f => (f.1, decode f.2)) <$> walk) decodedObject
         buffer offset config;
     Ok (VObj decodedObject', offset')).
Proof.
  revert decodedObject offset.
  induction walk as [|[name type] walk IH]; intros decodedObject offset.
  - constructor.
  - rewrite fmap_cons. cbn [decode_fields fst snd].
    destruct (decode type buffer offset config) as [[fieldValue offset']|e] eqn:Hdec.
    + eapply read_next; [done |]. apply IH.
    + by apply read_throws.
Qed.

(** Both walks have one outcome. *)
Lemma written_in_order_functional walk value offset config buffer outcome1 outcome2 :
  written_in_order walk value offset config buffer outcome1 ->
  written_in_order walk value offset config buffer outcome2 ->
  outcome1 = outcome2.
Proof.
  induction 1; inversion 1; subst; try congruence.
  repeat match goal with
         | H1 : ?x = _, H2 : ?x = _ |- _ => rewrite H1 in H2; simplify_eq
         end.
  auto.
Qed.

Lemma read_in_order_functional walk decodedObject buffer offset config outcome1 outcome2 :
  read_in_order walk decodedObject buffer offset config outcome1 ->
  read_in_order walk decodedObject buffer offset config outcome2 ->
  outcome1 = outcome2.
Proof.
  induction 1; inversion 1; subst; try congruence.
  repeat match goal with
         | H1 : ?x = _, H2 : ?x = _ |- _ => rewrite H1 in H2; simplify_eq
         end.
  auto.
Qed.

(** ** The encoder writes only between the two offsets *)

Lemma encode_framed (type : Ty) : framed (encode type).
Proof.
  induction type as [kind | elements IH | element size IH | fields IH | variants IH
                    | element IH] using Ty_nested_ind;
    intros value offset config buffer buffer' offset' H; simpl in H.
  - destruct kind; inv_enc;
      try (apply frame_refl);
      try (match goal with
           | H : setInteger _ _ _ _ _ = _ |- _ => by apply setInteger_frame in H
           | H : setBigInteger _ _ _ _ = _ |- _ => by apply setBigInteger_frame in H
           | H : setFloat _ _ _ _ _ _ _ = _ |- _ => by apply setFloat_frame in H
           end).
    match goal with
    | H1 : setBigInteger _ _ _ _ = _, H2 : view_set _ _ _ = _ |- _ =>
        apply setBigInteger_frame in H1; apply view_set_frame in H2
    end.
    eapply frame_trans; eauto.
  - destruct elements as [|t [|t' elements]].
    + eapply encode_each_frame; [| exact H]. by apply Forall_fmap.
    + apply Forall_cons_1 in IH as [IH _]. by eapply IH.
    + eapply encode_each_frame; [| exact H]. by apply Forall_fmap.
  - by eapply encode_times_frame.
  - eapply encode_fields_frame; [| exact H].
    apply Forall_enumerate, Forall_fmap. exact IH.
  - inv_enc. destruct x as [name variantValue]. simpl in H.
    destruct (get_own _ name) as [[variantIndex variant]|] eqn:Hown;
      [| destruct (throw_Ok _ _ _ _ H)].
    inv_enc. apply get_own_elem_of, list_elem_of_fmap in Hown as ([k [d t]] & [= -> -> ->] & Hin).
    rewrite Forall_forall in IH. specialize (IH _ Hin). simpl in *.
    match goal with Hs : setInteger _ _ _ _ _ = _ |- _ => apply setInteger_frame in Hs end.
    eapply frame_trans; [eassumption | by eapply IH].
  - inv_enc.
    match goal with Hs : setBigInteger _ _ _ _ = _ |- _ => apply setBigInteger_frame in Hs end.
    eapply frame_trans; [eassumption | by eapply encode_elements_frame].
Qed.

Lemma all_framed (ts : list Ty) : Forall framed (encode <$> ts).
Proof. apply Forall_fmap, Forall_true, encode_framed. Qed.

Lemma fields_framed (L : list (string * Ty)) :
  Forall (fun f : string * Encoder => framed f.2) ((fun f => (f.1, encode f.2)) <$> L).
Proof. apply Forall_fmap, Forall_true. intros f. apply encode_framed. Qed.

(** ** Reading back what was written *)

Lemma agree_refl buffer lo hi : agree buffer buffer lo hi.
Proof. by split. Qed.

Lemma agree_split b1 o b' o1 o' b'' :
  o <= o1 -> frame b1 o1 b' o' -> agree b'' b' o o' ->
  agree b'' b1 o o1 /\ agree b'' b' o1 o'.
Proof.
  intros Ho (Hlen & Ho' & Hout) (Hlen' & Hin). split; split; try congruence.
  - intros i Hi. rewrite Hin by lia. apply Hout. lia.
  - intros i Hi. apply Hin. lia.
Qed.

Lemma view_get_agree b1 b2 offset w :
  agree b1 b2 offset (offset + Z.of_nat w) -> view_get b1 offset w = view_get b2 offset w.
Proof.
  intros (Hlen & Hin). unfold view_get, in_view, byteLength. rewrite Hlen.
  destruct (Z.leb_spec 0 offset) as [H0 |]; [| done]. simpl.
  destruct (Z.leb_spec (offset + Z.of_nat w) (Z.of_nat (length b2))) as [H1 |]; [| done].
  f_equal. apply list_eq. intros i. destruct (decide (i < w)%nat) as [Hi | Hi].
  - rewrite !lookup_take_lt, !lookup_drop by done. apply Hin. lia.
  - by rewrite !lookup_take_ge by lia.
Qed.

Lemma view_get_view_set offset bytes buffer buffer' u :
  view_set offset bytes buffer = (buffer', Ok u) ->
  view_get buffer' offset (length bytes) = Ok bytes.
Proof.
  intros H. pose proof (view_set_frame _ _ _ _ _ H) as (Hlen & _ & _).
  apply view_set_Ok in H as (H0 & H1 & ->).
  unfold view_get, in_view, byteLength in *. rewrite Hlen.
  destruct (Z.leb_spec 0 offset); [| lia].
  destruct (Z.leb_spec (offset + Z.of_nat (length bytes)) (Z.of_nat (length buffer))); [| lia].
  simpl. f_equal.
  rewrite drop_app_length' by (rewrite length_take; lia).
  by rewrite take_app_length.
Qed.

(** What [getUint] reads in any buffer that agrees, on the bytes written,
    with the buffer a [view_set] of an integer produced. *)
Lemma getUint_written e w z offset buffer buffer' u buffer'' :
  view_set offset (int_bytes e w z) buffer = (buffer', Ok u) ->
  agree buffer'' buffer' offset (offset + Z.of_nat w) ->
  getUint w buffer'' offset e = Ok (z mod 256 ^ Z.of_nat w).
Proof.
  intros Hset Hagree. unfold getUint.
  rewrite (view_get_agree _ _ _ _ Hagree).
  apply view_get_view_set in Hset. rewrite length_int_bytes in Hset. rewrite Hset.
  simpl. unfold mret, result_ret. by rewrite int_value_int_bytes.
Qed.

Lemma setInteger_getUint w z e offset buffer buffer' u buffer'' :
  Z.abs z < 2 ^ 53 ->
  setInteger w offset (VNum (of_Z z)) e buffer = (buffer', Ok u) ->
  agree buffer'' buffer' offset (offset + Z.of_nat w) ->
  getUint w buffer'' offset e = Ok (z mod 256 ^ Z.of_nat w).
Proof.
  intros Hz Hset Hagree. unfold setInteger in Hset.
  destruct (offset <? 0); [destruct (throw_Ok _ _ _ _ Hset) |].
  inv_enc. simpl in *. simplify_eq. rewrite trunc_of_Z in Hset by done.
  by eapply getUint_written.
Qed.

Lemma setBigInteger_getUint z e offset buffer buffer' u buffer'' :
  setBigInteger offset (VBig z) e buffer = (buffer', Ok u) ->
  agree buffer'' buffer' offset (offset + 8) ->
  getUint 8 buffer'' offset e = Ok (z mod 256 ^ 8).
Proof.
  intros Hset Hagree. unfold setBigInteger in Hset.
  destruct (offset <? 0); [destruct (throw_Ok _ _ _ _ Hset) |].
  inv_enc. simpl in *. simplify_eq.
  by eapply (getUint_written _ 8).
Qed.

(** ** Decoding undoes encoding on plain descriptors *)

Lemma all_of_Forall {A} (P : A -> Prop) (l : list A) : all_of P l <-> Forall P l.
Proof.
  induction l as [|x l IH]; simpl.
  - split; [constructor | done].
  - rewrite IH, Forall_cons. done.
Qed.

Lemma all2_of_Forall2 {A B} (P : A -> B -> Prop) (l : list A) (k : list B) :
  all2_of P l k <-> Forall2 P l k.
Proof.
  revert k. induction l as [|x l IH]; intros [|y k]; simpl.
  - split; [constructor | done].
  - split; [done | inversion 1].
  - split; [done | inversion 1].
  - rewrite IH, Forall2_cons. done.
Qed.

Lemma inverse_on_integers config kind :
  plain config (TypeKindMarker kind) -> inverse_on config (TypeKindMarker kind).
Proof.
  intros Hplain value offset buffer buffer' offset' buffer'' Hconf Henc Hagree.
  destruct kind; try (destruct Hplain); destruct Hconf as (z & -> & Hz);
    cbn [encode] in Henc; inv_enc; cbn [decode].
  - erewrite (setInteger_getUint 1 z); [| lia | eassumption | eassumption].
    simpl. rewrite Z.mod_small by lia. done.
  - erewrite (setInteger_getUint 2 z); [| lia | eassumption | eassumption].
    simpl. rewrite Z.mod_small by lia. done.
  - erewrite (setInteger_getUint 4 z); [| lia | eassumption | eassumption].
    simpl. rewrite Z.mod_small by lia. done.
  - erewrite (setBigInteger_getUint z); [| eassumption | eassumption].
    simpl. rewrite Z.mod_small by lia. done.
  - unfold getInt. erewrite (setInteger_getUint 1 z); [| lia | eassumption | eassumption].
    simpl. unfold mret, result_ret. rewrite (signed_mod 1) by (simpl; lia). done.
  - unfold getInt. erewrite (setInteger_getUint 2 z); [| lia | eassumption | eassumption].
    simpl. unfold mret, result_ret. rewrite (signed_mod 2) by (simpl; lia). done.
  - unfold getInt. erewrite (setInteger_getUint 4 z); [| lia | eassumption | eassumption].
    simpl. unfold mret, result_ret. rewrite (signed_mod 4) by (simpl; lia). done.
  - unfold getInt. erewrite (setBigInteger_getUint z); [| eassumption | eassumption].
    simpl. unfold mret, result_ret. rewrite (signed_mod 8) by (simpl; lia). done.
Qed.

(** One step of a loop: an element is read back where it was written,
    because what is written after it stays beyond its last byte. *)
Lemma step_inverse config t v offset buffer b1 o1 buffer' offset' buffer'' :
  inverse_on config t ->
  conforms t v ->
  encode t v offset config buffer = (b1, Ok o1) ->
  frame b1 o1 buffer' offset' ->
  agree buffer'' buffer' offset offset' ->
  decode t buffer'' offset config = Ok (v, o1) /\ agree buffer'' buffer' o1 offset'.
Proof.
  intros Ht Hv Henc Hrest Hagree.
  pose proof (encode_framed t _ _ _ _ _ _ Henc) as (_ & Ho & _).
  destruct (agree_split _ offset _ _ _ _ Ho Hrest Hagree) as [Ha1 Ha2].
  split; [| done]. by eapply Ht.
Qed.

Lemma encode_each_inverse config (ts : list Ty) :
  Forall (inverse_on config) ts ->
  forall vs all index offset buffer buffer' offset' buffer'',
    drop index all = vs ->
    Forall2 conforms ts vs ->
    encode_each (encode <$> ts) index (VArr all) offset config buffer = (buffer', Ok offset') ->
    agree buffer'' buffer' offset offset' ->
    decode_each (decode <$> ts) buffer'' offset config = Ok (vs, offset').
Proof.
  induction 1 as [|t ts Ht _ IH];
    intros vs all index offset buffer buffer' offset' buffer'' Hdrop Hconf Henc Hagree.
  - apply Forall2_nil_inv_l in Hconf as ->. simpl in Henc. inv_enc. done.
  - apply Forall2_cons_inv_l in Hconf as (v & vs' & Hv & Hvs & ->).
    assert (Hlook : all !! index = Some v).
    { rewrite <- (Nat.add_0_r index), <- lookup_drop, Hdrop. done. }
    rewrite fmap_cons in Henc. cbn [encode_each get_index] in Henc. rewrite Hlook in Henc.
    apply Enc_bind_Ok in Henc as (x & b0 & [[= <-] ->]%lift_Ok & Henc).
    apply Enc_bind_Ok in Henc as (o1 & b1 & Hfirst & Hrest). cbn [default] in Hfirst.
    destruct (step_inverse config t v offset buffer b1 o1 buffer' offset' buffer'') as [Hd Ha];
      [done | done | done | by eapply encode_each_frame, Hrest; apply all_framed | done |].
    rewrite fmap_cons. cbn [decode_each]. rewrite Hd. simpl.
    erewrite IH; [done | | done | exact Hrest | done].
    rewrite (drop_S _ _ _ Hlook) in Hdrop. by simplify_eq.
Qed.

Lemma encode_times_inverse config (t : Ty) :
  inverse_on config t ->
  forall n vs all index offset buffer buffer' offset' buffer'',
    drop index all = vs ->
    length vs = n ->
    Forall (conforms t) vs ->
    encode_times n (encode t) index (VArr all) offset config buffer = (buffer', Ok offset') ->
    agree buffer'' buffer' offset offset' ->
    decode_times n (decode t) buffer'' offset config = Ok (vs, offset').
Proof.
  intros Ht. induction n as [|n IH];
    intros vs all index offset buffer buffer' offset' buffer'' Hdrop Hlen Hconf Henc Hagree.
  - destruct vs; [| done]. simpl in Henc. inv_enc. done.
  - destruct vs as [|v vs']; [done |]. apply Forall_cons_1 in Hconf as [Hv Hvs].
    assert (Hlook : all !! index = Some v).
    { rewrite <- (Nat.add_0_r index), <- lookup_drop, Hdrop. done. }
    cbn [encode_times get_index] in Henc. rewrite Hlook in Henc.
    apply Enc_bind_Ok in Henc as (x & b0 & [[= <-] ->]%lift_Ok & Henc).
    apply Enc_bind_Ok in Henc as (o1 & b1 & Hfirst & Hrest). cbn [default] in Hfirst.
    destruct (step_inverse config t v offset buffer b1 o1 buffer' offset' buffer'') as [Hd Ha];
      [done | done | done | by eapply encode_times_frame, Hrest; apply encode_framed | done |].
    cbn [decode_times]. rewrite Hd. simpl.
    erewrite IH; [done | | by simplify_eq/= | done | exact Hrest | done].
    rewrite (drop_S _ _ _ Hlook) in Hdrop. by simplify_eq.
Qed.

Lemma encode_fields_inverse config props (L : list (string * Ty)) :
  Forall (fun f => inverse_on config f.2) L ->
  Forall (fun f => exists x, props !! f.1 = Some x /\ conforms f.2 x) L ->
  "__proto__"%string ∉ L.*1 ->
  forall acc offset buffer buffer' offset' buffer'',
    encode_fields ((fun f => (f.1, encode f.2)) <$> L) (VObj props) offset config buffer
      = (buffer', Ok offset') ->
    agree buffer'' buffer' offset offset' ->
    exists acc',
      decode_fields ((fun f => (f.1, decode f.2)) <$> L) acc buffer'' offset config
        = Ok (acc', offset') /\
      forall key, acc' !! key = if decide (key ∈ L.*1) then props !! key else acc !! key.
Proof.
  induction 1 as [|[k0 t] L Ht _ IH];
    intros Hconf Hproto acc offset buffer buffer' offset' buffer'' Henc Hagree.
  - simpl in Henc. inv_enc. exists acc. split; [done |].
    intros key. rewrite decide_False; [done | apply not_elem_of_nil].
  - apply Forall_cons_1 in Hconf as [(x & Hx & Hv) Hconf].
    rewrite fmap_cons, not_elem_of_cons in Hproto. destruct Hproto as [Hk0 Hproto].
    rewrite fmap_cons in Henc. cbn [encode_fields get_field fst snd] in Henc.
    cbn [fst snd] in *. rewrite Hx in Henc.
    apply Enc_bind_Ok in Henc as (x' & b0 & [[= <-] ->]%lift_Ok & Henc).
    apply Enc_bind_Ok in Henc as (o1 & b1 & Hfirst & Hrest).
    destruct (step_inverse config t x offset buffer b1 o1 buffer' offset' buffer'') as [Hd Ha];
      [done | done | done | by eapply encode_fields_frame, Hrest; apply fields_framed | done |].
    destruct (IH Hconf Hproto (<[k0 := x]> acc) _ _ _ _ _ Hrest Ha) as (acc' & Hdec & Hacc').
    exists acc'. split.
    + rewrite fmap_cons. cbn [decode_fields fst snd]. rewrite Hd. simpl.
      unfold set_property. destruct (String.eqb_spec k0 "__proto__"); [congruence | done].
    + intros key. rewrite Hacc', fmap_cons. cbn [fst].
      destruct (decide (key ∈ L.*1)) as [Hin | Hnin].
      * rewrite decide_True; [done | by apply elem_of_cons; right].
      * destruct (decide (key = k0)) as [-> | Hne].
        -- rewrite lookup_insert_eq, decide_True; [done | by apply elem_of_cons; left].
        -- rewrite lookup_insert_ne by done.
           rewrite decide_False; [done |]. rewrite elem_of_cons. tauto.
Qed.

Lemma tuple_inverse config (ts : list Ty) :
  length ts <> 1%nat ->
  Forall (inverse_on config) ts ->
  inverse_on config (Tuple ts).
Proof.
  intros Hlen Hts value offset buffer buffer' offset' buffer'' Hconf Henc Hagree.
  assert (Hc : exists vs, value = VArr vs /\ Forall2 conforms ts vs).
  { destruct ts as [|t [|t' ts]]; [| done |];
      destruct Hconf as (vs & -> & Hall); exists vs; by rewrite <- all2_of_Forall2. }
  destruct Hc as (vs & -> & Hall).
  assert (He : encode_each (encode <$> ts) 0 (VArr vs) offset config buffer
               = (buffer', Ok offset')).
  { by destruct ts as [|t [|t' ts]]. }
  pose proof (encode_each_inverse config ts Hts vs vs 0%nat _ _ _ _ _ eq_refl Hall He Hagree)
    as Hd.
  destruct ts as [|t [|t' ts]]; [| done |]; cbn [decode]; by rewrite Hd.
Qed.

Lemma plain_inverse_on config type : plain config type -> inverse_on config type.
Proof.
  induction type as [kind | elements IH | element size IH | fields IH | variants IH
                    | element IH] using Ty_nested_ind; intros Hplain.
  - by apply inverse_on_integers.
  - cbn [plain] in Hplain. apply all_of_Forall in Hplain.
    assert (Hts : Forall (inverse_on config) elements).
    { apply Forall_forall. intros t Ht. rewrite Forall_forall in IH, Hplain. auto. }
    destruct (decide (length elements = 1%nat)) as [Hone | Hmany];
      [| by apply tuple_inverse].
    destruct elements as [|t [|t' ts]]; [done | | done].
    apply Forall_cons_1 in Hts as [Ht _]. exact Ht.
  - intros value offset buffer buffer' offset' buffer'' (vs & -> & Hsize & Hvs) Henc Hagree.
    cbn [encode decode] in *. subst size. rewrite Nat2Z.id in *.
    erewrite encode_times_inverse; [done | by apply IH | | | done | exact Henc | done]; done.
  - intros value offset buffer buffer' offset' buffer''
      (props & -> & Hkeys & Hfields) Henc Hagree.
    destruct Hplain as [Hproto Hplain]. apply all_of_Forall in Hplain, Hfields.
    cbn [encode decode] in *.
    rewrite (enumerate_fmap encode) in Henc. rewrite (enumerate_fmap decode).
    destruct (encode_fields_inverse config props (enumerate fields)) with
      (acc := (∅ : gmap string Value)) (offset := offset) (buffer := buffer)
      (buffer' := buffer') (offset' := offset') (buffer'' := buffer'')
      as (acc' & Hdec & Hacc'); [| | | done | done |].
    + apply Forall_enumerate, Forall_forall. intros f Hf.
      rewrite Forall_forall in IH, Hplain. auto.
    + by apply Forall_enumerate.
    + by rewrite elem_of_enumerate_keys.
    + rewrite Hdec. simpl. do 3 f_equal. apply map_eq. intros key. rewrite Hacc'.
      destruct (decide _) as [Hin | Hnin]; [done |].
      rewrite lookup_empty. symmetry. apply eq_None_not_Some. intros Hsome.
      apply Hnin, elem_of_enumerate_keys. auto.
  - intros value offset buffer buffer' offset' buffer''
      (name & variantValue & -> & Hdeclared) Henc Hagree.
    destruct Hplain as (Hbig & Hnd & Hplain). apply all_of_Forall in Hplain.
    rewrite (get_own_fmap (fun v : Z * Ty => conforms v.2)) in Hdeclared.
    destruct (get_own variants name) as [[d t]|] eqn:Hown; [| done]. simpl in Hdeclared.
    pose proof (get_own_elem_of _ _ _ Hown) as Hin.
    rewrite Forall_forall in IH, Hplain.
    destruct (Hplain _ Hin) as [Hd Hpt]. specialize (IH _ Hin Hpt). simpl in Hd, Hpt, IH.
    cbn [encode decode enum_slots] in *.
    apply Enc_bind_Ok in Henc as ([name' value'] & b0 & [[= <- <-] ->]%lift_Ok & Henc).
    rewrite (get_own_fmap (fun v : Z * Ty => (v.1, encode v.2))), Hown in Henc.
    simpl in Henc.
    apply Enc_bind_Ok in Henc as ([] & b1 & Hset & Hrest).
    pose proof (setInteger_frame _ _ _ _ _ _ _ Hset) as Hf1.
    pose proof (encode_framed t _ _ _ _ _ _ Hrest) as Hf2.
    destruct (agree_split b1 offset buffer' (offset + 4) offset' buffer'')
      as [Ha1 Ha2]; [lia | done | done |].
    assert (Hle : isLittleEndian config = false) by (unfold isLittleEndian; by rewrite Hbig).
    rewrite Hle in Hset.
    erewrite (setInteger_getUint 4 d); [| lia | exact Hset | exact Ha1].
    rewrite Z.mod_small by (simpl; lia). simpl.
    assert (Hidx : indexed ((fun v : string * (Z * Ty) => (v.1, (v.2.1, decode v.2.2)))
                              <$> variants) !! d = Some (decode t, name)).
    { unfold indexed. apply indexed_lookup.
      - rewrite enumerate_Permutation, <- !list_fmap_compose.
        rewrite <- list_fmap_compose in Hnd. exact Hnd.
      - apply elem_of_enumerate, list_elem_of_fmap. by exists (name, (d, t)). }
    rewrite Hidx. rewrite (IH _ _ _ _ _ _ Hdeclared Hrest Ha2). done.
  - destruct Hplain.
Qed.

(** ** Arrays of bytes *)

Lemma encode_u8_in_view value f offset config buffer :
  ToNumber value = Ok f ->
  0 <= offset -> offset + 1 <= byteLength buffer ->
  encode u8 value offset config buffer
  = (take (Z.to_nat offset) buffer ++ [trunc f mod 256]
       ++ drop (Z.to_nat offset + 1) buffer, Ok (offset + 1)).
Proof.
  intros Hf H0 H1. simpl. unfold setInteger.
  destruct (Z.ltb_spec offset 0); [lia |].
  unfold mbind, Enc_bind, lift. rewrite Hf, int_bytes_1.
  rewrite view_set_in_view by (simpl; lia). done.
Qed.

Lemma ToNumber_numbers bytes index :
  Forall (fun b => 0 <= b < 256) bytes ->
  exists f, ToNumber (default VUndef (numbers bytes !! index)) = Ok f
            /\ trunc f mod 256 = byte_at bytes index.
Proof.
  intros Hbytes. unfold numbers, byte_at. rewrite list_lookup_fmap.
  destruct (bytes !! index) as [b|] eqn:Hb; simpl.
  - eexists. split; [done |].
    apply (Forall_lookup_1 _ _ _ _ Hbytes) in Hb.
    rewrite trunc_of_Z by lia. apply Z.mod_small. lia.
  - eexists. split; done.
Qed.

Lemma encode_times_u8 n index bytes offset config buffer :
  Forall (fun b => 0 <= b < 256) bytes ->
  0 <= offset -> offset + Z.of_nat n <= byteLength buffer ->
  encode_times n (encode u8) index (VArr (numbers bytes)) offset config buffer
  = (take (Z.to_nat offset) buffer ++ (byte_at bytes <$> seq index n)
       ++ drop (Z.to_nat offset + n) buffer,
     Ok (offset + Z.of_nat n)).
Proof.
  intros Hbytes. revert index offset buffer.
  induction n as [|n IH]; intros index offset buffer Ho Hroom.
  - simpl. rewrite Nat.add_0_r, take_drop, Z.add_0_r. done.
  - destruct (ToNumber_numbers bytes index Hbytes) as (f & Hf & Hbyte).
    cbn [encode_times]. unfold mbind at 1, Enc_bind, lift. cbn [get_index].
    unfold mbind at 1, Enc_bind.
    rewrite (encode_u8_in_view _ f) by (done || lia).
    rewrite Hbyte. unfold byteLength in Hroom.
    rewrite IH; [| lia | rewrite (byteLength_splice _ _ [_]); unfold byteLength; simpl; lia].
    f_equal; [| f_equal; lia].
    pose proof (splice_splice buffer (Z.to_nat offset) [byte_at bytes index]
                  (byte_at bytes <$> seq (S index) n)) as Hs.
    rewrite length_app, length_fmap, length_seq in Hs. simpl length in Hs.
    replace (Z.to_nat (offset + 1)) with (Z.to_nat offset + 1)%nat by lia.
    rewrite Hs by lia. done.
Qed.

(** * The claims *)

(** ** Round trip *)

(** C1.  The round trip does not hold on the code.  Decoding what [encode]
    wrote gives back: false for the bool true; a number and a cursor moved
    by one for the unit value, which wrote nothing; a text read at the
    literal offset 8 for a string encoded at offset 1; an exception for a
    collection, and for an enum variant whose discriminant, written
    little-endian, is read big-endian. *)
Theorem roundtrip_fails :
  (encode Bool (VBool true) 0 STANDARD [9] = ([1], Ok 1) /\
   decode Bool [1] 0 STANDARD = Ok (VBool false, 1)) /\
  (encode Unit (VObj ∅) 0 STANDARD [9] = ([9], Ok 0) /\
   decode Unit [9] 0 STANDARD = Ok (VNum (of_Z 9), 1)) /\
  (encode Str (VStr "hi") 1 STANDARD (replicate 11 0)
     = ([0; 2; 0; 0; 0; 0; 0; 0; 0; 104; 105], Ok 11) /\
   decode Str [0; 2; 0; 0; 0; 0; 0; 0; 0; 104; 105] 1 STANDARD
     = Ok (VStr (String.String "000" "h"), 11)) /\
  (encode (Collection u8) (VArr [VNum (of_Z 7)]) 0 STANDARD (replicate 9 0)
     = ([1; 0; 0; 0; 0; 0; 0; 0; 7], Ok 9) /\
   decode (Collection u8) [1; 0; 0; 0; 0; 0; 0; 0; 7] 0 STANDARD = Err TypeError) /\
  (encode (Enum [("Some"%string, (0, Tuple [u8])); ("None"%string, (1, Tuple []))])
       (VEnum "None" (VArr [])) 0 STANDARD (replicate 4 0)
     = ([1; 0; 0; 0], Ok 4) /\
   decode (Enum [("Some"%string, (0, Tuple [u8])); ("None"%string, (1, Tuple []))])
       [1; 0; 0; 0] 0 STANDARD
     = Err TypeError).
Proof. repeat split. Qed.



(** ** Primitives: bool and unit *)

(** C2.  Bool on the wire.  [encode] writes one byte, 1 for true and 0 for
    false; [decode] then moves the cursor by one but tests the byte against
    0, so the byte 1 comes back as false and the byte 0 as true. *)
Theorem decode_bool_inverts :
  (forall (b : bool) config,
     encode Bool (VBool b) 0 config [9] = ([if b then 1 else 0], Ok 1)) /\
  (forall (b : bool) config,
     decode Bool [if b then 1 else 0] 0 config = Ok (VBool (negb b), 1)) /\
  decode Bool [1] 0 STANDARD = Ok (VBool false, 1) /\
  decode Bool [0] 0 STANDARD = Ok (VBool true, 1).
Proof.
  repeat split; intros [] [[] ? ?]; reflexivity.
Qed.

(** C4.  Unit and the cursor.  Encoding a unit descriptor writes nothing and
    returns the offset it was given.  Decoding one does not: the unit case
    of [decode] runs on into the u8 case, so it behaves exactly as decoding
    a u8, reading one byte (or throwing at the end of the buffer) and
    returning that byte with the cursor moved by one. *)
Theorem decode_unit_reads_a_byte :
  (forall value offset config buffer,
     encode Unit value offset config buffer = (buffer, Ok offset)) /\
  (forall buffer offset config,
     decode Unit buffer offset config = decode u8 buffer offset config) /\
  decode Unit [5] 0 STANDARD = Ok (VNum (of_Z 5), 1) /\
  decode Unit [] 0 STANDARD = Err RangeError.
Proof. repeat split. Qed.

(** ** Collections and enums *)

(** C3.  Collection length.  An empty Collection(u32) value is encoded as
    eight zero bytes.  [decode] of a collection descriptor never returns a
    sequence: after its loop it runs on into the tuple case, whose
    [for ... of] over the descriptor throws; and its count is read at the
    literal offset 0, as the last conjunct shows on a buffer whose first
    eight bytes hold 2 while the collection encoded at offset 8 has one
    element: the loop asks for a second element and leaves the buffer. *)
Theorem decode_collection_never_returns :
  encode (Collection u32) (VArr []) 0 STANDARD (replicate 8 9) = (replicate 8 0, Ok 8) /\
  (forall element buffer offset config r,
     decode (Collection element) buffer offset config <> Ok r) /\
  decode (Collection u32) (replicate 8 0) 0 STANDARD = Err TypeError /\
  encode (Collection u8) (VArr [VNum (of_Z 7)]) 8 STANDARD (2 :: replicate 16 0)
    = ([2; 0; 0; 0; 0; 0; 0; 0; 1; 0; 0; 0; 0; 0; 0; 0; 7], Ok 17) /\
  decode (Collection u8) [2; 0; 0; 0; 0; 0; 0; 0; 1; 0; 0; 0; 0; 0; 0; 0; 7] 8 STANDARD
    = Err RangeError.
Proof.
  split; [reflexivity |]. split; [| repeat split].
  intros element buffer offset config r. simpl.
  destruct (getUint 8 buffer 0 (isLittleEndian config)) as [count|e]; simpl; [| done].
  destruct (2 ^ 53 <? count); [done |].
  by destruct (decode_times _ _ _ _ _) as [[collection offset']|e].
Qed.

(** C5.  Enum discriminant and byte order.  [encode] writes the
    discriminant in the configured byte order, [decode] always reads it
    big-endian.  Under the standard (little-endian) configuration the
    variant with discriminant 1 is written as 01 00 00 00 and read back as
    16777216: it resolves to another variant when one is declared with that
    discriminant, and throws when none is. *)
Theorem decode_enum_reads_big_endian :
  encode (Enum [("A"%string, (1, Tuple [u8])); ("B"%string, (16777216, Tuple [u8]))])
      (VEnum "A" (VNum (of_Z 7))) 0 STANDARD (replicate 5 0)
    = ([1; 0; 0; 0; 7], Ok 5) /\
  decode (Enum [("A"%string, (1, Tuple [u8])); ("B"%string, (16777216, Tuple [u8]))])
      [1; 0; 0; 0; 7] 0 STANDARD
    = Ok (VEnum "B" (VNum (of_Z 7)), 5) /\
  encode (Enum [("A"%string, (0, Tuple [u8])); ("B"%string, (1, Tuple [u8]))])
      (VEnum "B" (VNum (of_Z 7))) 0 STANDARD (replicate 5 0)
    = ([1; 0; 0; 0; 7], Ok 5) /\
  decode (Enum [("A"%string, (0, Tuple [u8])); ("B"%string, (1, Tuple [u8]))])
      [1; 0; 0; 0; 7] 0 STANDARD
    = Err TypeError.
Proof. repeat split. Qed.

(** ** Structs *)

(** C6, as the code has it.  The names of a struct schema being all
    different, there is one walk of its fields, and one only, that lists
    the fields whose names are array indices first, by ascending index, and
    then the other fields in declared order; it is the declared order
    itself when no name is an array index.  [encode] writes the properties
    of the value one field of that walk after the other, each where the one
    before it stopped, and its outcome is the outcome of that walk;
    [decode] reads the fields back along the same walk, each where the one
    before it stopped, assigning each to the decoded object. *)
Theorem struct_field_order (fields : list (string * Ty)) :
  NoDup fields.*1 ->
  exists walk,
    walk_order fields walk /\
    (forall walk', walk_order fields walk' -> walk' = walk) /\
    (Forall (fun f => array_index f.1 = None) fields -> walk = fields) /\
    (forall value offset config buffer,
       written_in_order walk value offset config buffer
         (encode (Struct fields) value offset config buffer)) /\
    (forall buffer offset config,
       read_in_order walk ∅ buffer offset config
         (decode (Struct fields) buffer offset config)).
Proof.
  intros Hnames. exists (enumerate fields).
  pose proof (walk_order_enumerate fields Hnames) as Hwalk.
  split; [done |].
  split; [intros walk' Hwalk'; by eapply walk_order_unique |].
  split; [intros H; by eapply walk_order_declared |]. split.
  - intros value offset config buffer. cbn [encode].
    rewrite (enumerate_fmap encode). apply encode_fields_written.
  - intros buffer offset config. cbn [decode].
    rewrite (enumerate_fmap decode). apply decode_fields_read.
Qed.

Lemma struct_field_order_witness :
  NoDup [("b"%string, u8); ("1"%string, u16); ("0"%string, u8)].*1 /\
  exists walk,
    walk_order [("b"%string, u8); ("1"%string, u16); ("0"%string, u8)] walk /\
    (forall walk',
       walk_order [("b"%string, u8); ("1"%string, u16); ("0"%string, u8)] walk' ->
       walk' = walk) /\
    (Forall (fun f : string * Ty => array_index f.1 = None)
       [("b"%string, u8); ("1"%string, u16); ("0"%string, u8)] ->
     walk = [("b"%string, u8); ("1"%string, u16); ("0"%string, u8)]) /\
    (forall value offset config buffer,
       written_in_order walk value offset config buffer
         (encode (Struct [("b"%string, u8); ("1"%string, u16); ("0"%string, u8)])
            value offset config buffer)) /\
    (forall buffer offset config,
       read_in_order walk ∅ buffer offset config
         (decode (Struct [("b"%string, u8); ("1"%string, u16); ("0"%string, u8)])
            buffer offset config)).
Proof.
  assert (H : NoDup [("b"%string, u8); ("1"%string, u16); ("0"%string, u8)].*1)
    by (apply (bool_decide_unpack _); vm_compute; reflexivity).
  split; [exact H |].
  exact (struct_field_order [("b"%string, u8); ("1"%string, u16); ("0"%string, u8)] H).
Defined.

(** The walk of that schema: "0", then "1", then "b".  Under it the value
    with 7 under "b", 258 under "1" and 16 under "0" is written as the byte
    16, the two bytes of 258 and the byte 7. *)
Lemma walk_order_mixed_names :
  walk_order [("b"%string, u8); ("1"%string, u16); ("0"%string, u8)]
             [("0"%string, u8); ("1"%string, u16); ("b"%string, u8)] /\
  encode (Struct [("b"%string, u8); ("1"%string, u16); ("0"%string, u8)])
      (VObj (<["b"%string := VNum (of_Z 7)]>
               (<["1"%string := VNum (of_Z 258)]> (<["0"%string := VNum (of_Z 16)]> ∅))))
      0 STANDARD [9; 9; 9; 9]
    = ([16; 2; 1; 7], Ok 4).
Proof.
  split; [| reflexivity].
  exists [("0"%string, u8); ("1"%string, u16)], [("b"%string, u8)].
  split; [done |]. split; [apply Permutation_swap |]. split; [| done].
  repeat constructor. by exists 0, 1.
Qed.

(** C6, as the claim states it, fails on field names that are array
    indices: the struct declared with the fields "1" then "0" is written
    with the field "0" first, and read back in that order too. *)
Lemma struct_index_names_are_reordered :
  encode (Struct [("1"%string, u8); ("0"%string, u8)])
      (VObj (<["1"%string := VNum (of_Z 1)]> (<["0"%string := VNum (of_Z 2)]> ∅)))
      0 STANDARD [9; 9]
    = ([2; 1], Ok 2) /\
  encode_declared_order [("1"%string, u8); ("0"%string, u8)]
      (VObj (<["1"%string := VNum (of_Z 1)]> (<["0"%string := VNum (of_Z 2)]> ∅)))
      0 STANDARD [9; 9]
    = ([1; 2], Ok 2) /\
  decode (Struct [("1"%string, u8); ("0"%string, u8)]) [1; 2] 0 STANDARD
    = Ok (VObj (<["0"%string := VNum (of_Z 1)]> (<["1"%string := VNum (of_Z 2)]> ∅)), 2) /\
  decode_declared_order [("1"%string, u8); ("0"%string, u8)] [1; 2] 0 STANDARD
    = Ok (VObj (<["1"%string := VNum (of_Z 1)]> (<["0"%string := VNum (of_Z 2)]> ∅)), 2).
Proof. repeat split. Qed.

(** Nor are they written along the declared order: the outcome of [encode]
    on that struct is not the outcome of writing the field "1" and then the
    field "0". *)
Lemma struct_index_names_not_in_declared_order :
  ~ written_in_order [("1"%string, u8); ("0"%string, u8)]
      (VObj (<["1"%string := VNum (of_Z 1)]> (<["0"%string := VNum (of_Z 2)]> ∅)))
      0 STANDARD [9; 9]
      (encode (Struct [("1"%string, u8); ("0"%string, u8)])
         (VObj (<["1"%string := VNum (of_Z 1)]> (<["0"%string := VNum (of_Z 2)]> ∅)))
         0 STANDARD [9; 9]).
Proof.
  intros H.
  assert (H' : written_in_order [("1"%string, u8); ("0"%string, u8)]
      (VObj (<["1"%string := VNum (of_Z 1)]> (<["0"%string := VNum (of_Z 2)]> ∅)))
      0 STANDARD [9; 9] ([1; 2], Ok 2)).
  { eapply written_next; [reflexivity | reflexivity |].
    eapply written_next; [reflexivity | reflexivity |]. constructor. }
  pose proof (written_in_order_functional _ _ _ _ _ _ _ H H') as Heq.
  vm_compute in Heq. discriminate.
Qed.

(** ** Arrays and tuples *)

(** C7, as the code has it.  [encode] has no arity check and no
    ShapeMismatch outcome: under Array(u8, size) it writes exactly [size]
    bytes whatever the number of elements of the value, the byte at each
    position being the element of the value there, and 0 where the value
    has none; it returns the offset moved by [size].  A value of the
    declared arity is the special case where every position has its
    element. *)
Theorem encode_array_u8_any_arity (bytes : list Z) (size : nat) (offset : Z)
    (config : BincodeConfig) (buffer : ArrayBuffer) :
  Forall (fun b => 0 <= b < 256) bytes ->
  0 <= offset ->
  offset + Z.of_nat size <= byteLength buffer ->
  encode (Array u8 (Z.of_nat size)) (VArr (numbers bytes)) offset config buffer
  = (take (Z.to_nat offset) buffer ++ (byte_at bytes <$> seq 0 size)
       ++ drop (Z.to_nat offset + size) buffer,
     Ok (offset + Z.of_nat size)).
Proof.
  intros Hbytes Ho Hroom. cbn [encode]. rewrite Nat2Z.id.
  by apply encode_times_u8.
Qed.

Lemma encode_array_u8_any_arity_witness :
  Forall (fun b => 0 <= b < 256) [7; 8; 9] /\
  0 <= 1 /\
  1 + Z.of_nat 3 <= byteLength [0; 0; 0; 0; 0] /\
  encode (Array u8 (Z.of_nat 3)) (VArr (numbers [7; 8; 9])) 1 STANDARD [0; 0; 0; 0; 0]
  = (take (Z.to_nat 1) [0; 0; 0; 0; 0] ++ (byte_at [7; 8; 9] <$> seq 0 3)
       ++ drop (Z.to_nat 1 + 3) [0; 0; 0; 0; 0],
     Ok (1 + Z.of_nat 3)).
Proof.
  assert (H1 : Forall (fun b => 0 <= b < 256) [7; 8; 9]) by (repeat constructor; lia).
  assert (H2 : 0 <= 1) by lia.
  assert (H3 : 1 + Z.of_nat 3 <= byteLength [0; 0; 0; 0; 0]) by (vm_compute; discriminate).
  split; [exact H1 | split; [exact H2 | split; [exact H3 |]]].
  exact (encode_array_u8_any_arity [7; 8; 9] 3 1 STANDARD [0; 0; 0; 0; 0] H1 H2 H3).
Defined.

(** C7, as the claim states it, fails: under Array(u8, size=3) a
    two-element value is encoded without any failure; the three bytes are
    written, the third being 0, and the offset 3 is returned. *)
Lemma array_arity_is_not_enforced :
  encode (Array u8 3) (VArr [VNum (of_Z 7); VNum (of_Z 7)]) 0 STANDARD [9; 9; 9]
    = ([7; 7; 0], Ok 3) /\
  ~ (exists e buffer', encode (Array u8 3) (VArr [VNum (of_Z 7); VNum (of_Z 7)])
                         0 STANDARD [9; 9; 9] = (buffer', Err e)) /\
  encode (Array u8 3) (VArr [VNum (of_Z 7); VNum (of_Z 7); VNum (of_Z 7)]) 0 STANDARD [9; 9; 9]
    = ([7; 7; 7], Ok 3).
Proof.
  split; [reflexivity |]. split; [| reflexivity].
  intros (e & buffer' & H). discriminate H.
Qed.

(** C8.  Tuple-of-one transparency: encoding under a one-element tuple
    descriptor is encoding under its element descriptor, same bytes, same
    returned offset, same outcome; Tuple(u8) with 7 writes the single byte 7
    as u8 with 7 does. *)
Theorem tuple_of_one_transparent :
  (forall t value offset config buffer,
     encode (Tuple [t]) value offset config buffer = encode t value offset config buffer) /\
  encode (Tuple [u8]) (VNum (of_Z 7)) 0 STANDARD [9; 9] = ([7; 9], Ok 1) /\
  encode u8 (VNum (of_Z 7)) 0 STANDARD [9; 9] = ([7; 9], Ok 1).
Proof. repeat split. Qed.

(** C10.  The empty tuple: encoding under Tuple() writes nothing and
    returns the offset unchanged, whatever the value; decoding under it
    yields the empty sequence and the cursor unchanged, at any offset. *)
Theorem empty_tuple_consumes_nothing :
  (forall value offset config buffer,
     encode (Tuple []) value offset config buffer = (buffer, Ok offset)) /\
  (forall buffer offset config,
     decode (Tuple []) buffer offset config = Ok (VArr [], offset)).
Proof. repeat split. Qed.

(** ** Frame *)

(** C9.  Encoder frame property: a call of [encode] that returns
    [newOffset] has changed no byte of the buffer outside the half-open
    range from [offset] to [newOffset], and has kept the length of the
    buffer.  It holds for every descriptor and every value, conforming or
    not. *)
Theorem encode_frame (type : Ty) (value : Value) (offset : Z) (config : BincodeConfig)
    (buffer buffer' : ArrayBuffer) (newOffset : Z) :
  encode type value offset config buffer = (buffer', Ok newOffset) ->
  length buffer' = length buffer /\
  forall i : nat, ~ (offset <= Z.of_nat i < newOffset) -> buffer' !! i = buffer !! i.
Proof.
  intros (Hlen & _ & Hout)%encode_framed. split; [done |].
  intros i Hi. apply Hout. lia.
Qed.

Lemma encode_frame_witness :
  encode (Tuple [u8; u16]) (VArr [VNum (of_Z 7); VNum (of_Z 258)]) 1 STANDARD [9; 9; 9; 9; 9]
    = ([9; 7; 2; 1; 9], Ok 4) /\
  (length ([9; 7; 2; 1; 9] : ArrayBuffer) = length ([9; 9; 9; 9; 9] : ArrayBuffer) /\
   forall i : nat, ~ (1 <= Z.of_nat i < 4) ->
     ([9; 7; 2; 1; 9] : ArrayBuffer) !! i = ([9; 9; 9; 9; 9] : ArrayBuffer) !! i).
Proof.
  split; [reflexivity |].
  apply (encode_frame (Tuple [u8; u16]) (VArr [VNum (of_Z 7); VNum (of_Z 258)])
           1 STANDARD [9; 9; 9; 9; 9] [9; 7; 2; 1; 9] 4).
  reflexivity.
Defined.

(** * More of the codec *)

(** ** Every outcome of the encoder, failures included *)

Lemma Enc_bind_inv {A B} (m : Enc A) (k : A -> Enc B) buffer buffer' (r : result B) :
  (m ≫= k) buffer = (buffer', r) ->
  (exists e, m buffer = (buffer', Err e) /\ r = Err e) \/
  (exists a buffer1, m buffer = (buffer1, Ok a) /\ k a buffer1 = (buffer', r)).
Proof.
  unfold mbind, Enc_bind. destruct (m buffer) as [buffer1 [a|e]].
  - right. eauto.
  - intros [= <- <-]. left. eauto.
Qed.

Lemma view_set_outcome offset bytes buffer buffer' (r : result unit) :
  view_set offset bytes buffer = (buffer', r) ->
  (buffer' = buffer /\ r = Err RangeError) \/
  (r = Ok tt /\ frame buffer offset buffer' (offset + Z.of_nat (length bytes))).
Proof.
  intros H. destruct r as [[]|e].
  - right. split; [done |]. by eapply view_set_frame.
  - left. unfold view_set in H. destruct (in_view _ _ _); by simplify_eq.
Qed.

(** The shape shared by the three setters. *)
Lemma setter_outcome {A} (conv : result A) (bytes : A -> list Z) offset buffer buffer'
    (r : result unit) :
  (if offset <? 0 then throw RangeError
   else a ← lift conv; view_set offset (bytes a)) buffer = (buffer', r) ->
  (buffer' = buffer /\ exists e, r = Err e) \/
  (exists a, conv = Ok a /\ r = Ok tt /\
             frame buffer offset buffer' (offset + Z.of_nat (length (bytes a)))).
Proof.
  destruct (offset <? 0).
  - intros [= <- <-]. left. eauto.
  - intros [(e & [= <- Hc] & ->) | (a & b1 & [= <- Hc] & Hset)]%Enc_bind_inv.
    + left. eauto.
    + apply view_set_outcome in Hset as [[-> ->] | [-> Hf]]; [left; eauto |].
      right. exists a. by rewrite Hc.
Qed.

Lemma prefix_of_frame buffer offset buffer' offset' :
  frame buffer offset buffer' offset' ->
  length buffer' = length buffer /\
  forall i : nat, Z.of_nat i < offset -> buffer' !! i = buffer !! i.
Proof. intros (Hlen & _ & Hout). split; [done |]. intros i Hi. apply Hout. lia. Qed.

Lemma prefix_step (e : Encoder) (k : Z -> Enc Z) value offset config buffer buffer' r :
  framed e -> keeps_prefix e ->
  (forall offset1 buffer1, offset <= offset1 -> k offset1 buffer1 = (buffer', r) ->
     length buffer' = length buffer1 /\
     forall i : nat, Z.of_nat i < offset1 -> buffer' !! i = buffer1 !! i) ->
  (e value offset config ≫= k) buffer = (buffer', r) ->
  length buffer' = length buffer /\
  forall i : nat, Z.of_nat i < offset -> buffer' !! i = buffer !! i.
Proof.
  intros Hf Hp Hk [(err & He & ->) | (o1 & b1 & He & Hrest)]%Enc_bind_inv.
  - by eapply Hp.
  - pose proof (Hf _ _ _ _ _ _ He) as (Hlen & Ho & Hout).
    destruct (Hk _ _ Ho Hrest) as [Hlen' Hpre]. split; [congruence |].
    intros i Hi. rewrite Hpre by lia. apply Hout. lia.
Qed.

Lemma lift_prefix {A} (c : result A) (k : A -> Enc Z) offset buffer buffer' r :
  (forall a, k a buffer = (buffer', r) ->
     length buffer' = length buffer /\
     forall i : nat, Z.of_nat i < offset -> buffer' !! i = buffer !! i) ->
  (lift c ≫= k) buffer = (buffer', r) ->
  length buffer' = length buffer /\
  forall i : nat, Z.of_nat i < offset -> buffer' !! i = buffer !! i.
Proof.
  intros Hk [(err & [= <- _] & _) | (a & b1 & [= <- _] & Hrest)]%Enc_bind_inv; [done |].
  by eapply Hk.
Qed.

Lemma encode_each_prefix es index tupleValue offset config buffer buffer' r :
  Forall framed es -> Forall keeps_prefix es ->
  encode_each es index tupleValue offset config buffer = (buffer', r) ->
  length buffer' = length buffer /\
  forall i : nat, Z.of_nat i < offset -> buffer' !! i = buffer !! i.
Proof.
  intros Hf Hp. revert index offset buffer.
  induction es as [|e es IH]; intros index offset buffer H; simpl in H.
  - by injection H as <- _.
  - apply Forall_cons_1 in Hf as [Hf Hfs]. apply Forall_cons_1 in Hp as [Hp Hps].
    eapply lift_prefix; [| exact H]. intros x Hx.
    eapply prefix_step; [exact Hf | exact Hp | | exact Hx].
    intros o1 b1 Ho Hrest. destruct (IH Hfs Hps _ _ _ Hrest) as [Hl Hpre].
    split; [done |]. intros i Hi. apply Hpre. lia.
Qed.

Lemma encode_times_prefix n e index arrayValue offset config buffer buffer' r :
  framed e -> keeps_prefix e ->
  encode_times n e index arrayValue offset config buffer = (buffer', r) ->
  length buffer' = length buffer /\
  forall i : nat, Z.of_nat i < offset -> buffer' !! i = buffer !! i.
Proof.
  intros Hf Hp. revert index offset buffer.
  induction n as [|n IH]; intros index offset buffer H; simpl in H.
  - by injection H as <- _.
  - eapply lift_prefix; [| exact H]. intros x Hx.
    eapply prefix_step; [exact Hf | exact Hp | | exact Hx].
    intros o1 b1 Ho Hrest. destruct (IH _ _ _ Hrest) as [Hl Hpre].
    split; [done |]. intros i Hi. apply Hpre. lia.
Qed.

Lemma encode_fields_prefix (fs : list (string * Encoder)) structValue offset config
    buffer buffer' r :
  Forall (fun f => framed f.2) fs -> Forall (fun f => keeps_prefix f.2) fs ->
  encode_fields fs structValue offset config buffer = (buffer', r) ->
  length buffer' = length buffer /\
  forall i : nat, Z.of_nat i < offset -> buffer' !! i = buffer !! i.
Proof.
  intros Hf Hp. revert offset buffer.
  induction fs as [|[field e] fs IH]; intros offset buffer H; simpl in H.
  - by injection H as <- _.
  - apply Forall_cons_1 in Hf as [Hf Hfs]. apply Forall_cons_1 in Hp as [Hp Hps].
    eapply lift_prefix; [| exact H]. intros x Hx.
    eapply prefix_step; [exact Hf | exact Hp | | exact Hx].
    intros o1 b1 Ho Hrest. destruct (IH Hfs Hps _ _ Hrest) as [Hl Hpre].
    split; [done |]. intros i Hi. apply Hpre. lia.
Qed.

Lemma encode_elements_prefix e elements offset config buffer buffer' r :
  framed e -> keeps_prefix e ->
  encode_elements e elements offset config buffer = (buffer', r) ->
  length buffer' = length buffer /\
  forall i : nat, Z.of_nat i < offset -> buffer' !! i = buffer !! i.
Proof.
  intros Hf Hp. revert offset buffer.
  induction elements as [|x elements IH]; intros offset buffer H; simpl in H.
  - by injection H as <- _.
  - eapply prefix_step; [exact Hf | exact Hp | | exact H].
    intros o1 b1 Ho Hrest. destruct (IH _ _ Hrest) as [Hl Hpre].
    split; [done |]. intros i Hi. apply Hpre. lia.
Qed.

Lemma setter_prefix {A} (conv : result A) (bytes : A -> list Z) offset buffer buffer'
    (r : result unit) :
  (if offset <? 0 then throw RangeError
   else a ← lift conv; view_set offset (bytes a)) buffer = (buffer', r) ->
  length buffer' = length buffer /\
  forall i : nat, Z.of_nat i < offset -> buffer' !! i = buffer !! i.
Proof.
  intros [[-> _] | (a & _ & _ & Hf)]%setter_outcome; [done |].
  by eapply prefix_of_frame.
Qed.

Lemma setter_then_prefix {A} (conv : result A) (bytes : A -> list Z) offset (k : Enc Z)
    buffer buffer' (r : result Z) :
  (forall buffer1, k buffer1 = (buffer', r) ->
     length buffer' = length buffer1 /\
     forall i : nat, Z.of_nat i < offset -> buffer' !! i = buffer1 !! i) ->
  ((if offset <? 0 then throw RangeError
    else a ← lift conv; view_set offset (bytes a)) ≫= fun _ => k) buffer = (buffer', r) ->
  length buffer' = length buffer /\
  forall i : nat, Z.of_nat i < offset -> buffer' !! i = buffer !! i.
Proof.
  intros Hk [(e & Hs & ->) | ([] & b1 & Hs & Hrest)]%Enc_bind_inv.
  - by eapply setter_prefix.
  - apply setter_prefix in Hs as [Hl Hp]. destruct (Hk _ Hrest) as [Hl' Hp'].
    split; [congruence |]. intros i Hi. rewrite Hp' by done. by apply Hp.
Qed.

Lemma mret_prefix (x : Z) (offset : Z) (buffer buffer' : ArrayBuffer) (r : result Z) :
  (mret x : Enc Z) buffer = (buffer', r) ->
  length buffer' = length buffer /\
  forall i : nat, Z.of_nat i < offset -> buffer' !! i = buffer !! i.
Proof. by intros [= <- _]. Qed.

Lemma encode_keeps_prefix (type : Ty) : keeps_prefix (encode type).
Proof.
  induction type as [kind | elements IH | element size IH | fields IH | variants IH
                    | element IH] using Ty_nested_ind;
    intros value offset config buffer buffer' r H; simpl in H.
  - destruct kind;
      try (by injection H as <- _);
      try (by (eapply setter_then_prefix; [| exact H]; intros b1; apply mret_prefix)).
    eapply lift_prefix; [| exact H]. intros encoded He.
    eapply setter_then_prefix; [| exact He]. intros b1 Hb1.
    apply Enc_bind_inv in Hb1 as [(e & Hs & ->) | ([] & b2 & Hs & Hrest)].
    + apply view_set_outcome in Hs as [[-> _] | [? _]]; done.
    + apply view_set_frame, prefix_of_frame in Hs as [Hl Hp]. injection Hrest as <- _.
      split; [done |]. intros i Hi. apply Hp. lia.
  - destruct elements as [|t [|t' elements]].
    + by injection H as <- _.
    + apply Forall_cons_1 in IH as [IH _]. by eapply IH.
    + eapply encode_each_prefix; [apply all_framed | by apply Forall_fmap | exact H].
  - eapply encode_times_prefix; [apply encode_framed | exact IH | exact H].
  - eapply encode_fields_prefix; [| | exact H].
    + rewrite (enumerate_fmap encode). apply fields_framed.
    + apply Forall_enumerate, Forall_fmap. exact IH.
  - eapply lift_prefix; [| exact H]. intros [name variantValue] Hx. simpl in Hx.
    destruct (get_own _ name) as [[variantIndex variant]|] eqn:Hown;
      [| by injection Hx as <- _].
    apply get_own_elem_of, list_elem_of_fmap in Hown as ([k [d t]] & [= -> -> ->] & Hin).
    rewrite Forall_forall in IH. specialize (IH _ Hin). simpl in IH.
    eapply setter_then_prefix; [| exact Hx]. intros b1 Hb1.
    destruct (IH _ _ _ _ _ _ Hb1) as [Hl Hp]. split; [done |].
    intros i Hi. apply Hp. lia.
  - eapply lift_prefix; [| exact H]. intros elements Hx.
    eapply setter_then_prefix; [| exact Hx]. intros b1 Hb1.
    destruct (encode_elements_prefix _ _ _ _ _ _ _ (encode_framed element) IH Hb1)
      as [Hl Hp].
    split; [done |]. intros i Hi. apply Hp. lia.
Qed.

(** Whatever its outcome, a return or any throw, a call of [encode] keeps
    the length of the buffer and every byte before [offset]: what a failing
    call has already written lies at [offset] or beyond. *)
Theorem encode_any_outcome_keeps_prefix (type : Ty) (value : Value) (offset : Z)
    (config : BincodeConfig) (buffer buffer' : ArrayBuffer) (r : result Z) :
  encode type value offset config buffer = (buffer', r) ->
  length buffer' = length buffer /\
  forall i : nat, Z.of_nat i < offset -> buffer' !! i = buffer !! i.
Proof. apply encode_keeps_prefix. Qed.

Lemma encode_any_outcome_keeps_prefix_witness :
  encode (Tuple [u16; u64]) (VArr [VNum (of_Z 258); VNum (of_Z 1)]) 2 STANDARD
      [9; 9; 9; 9; 9; 9; 9; 9; 9; 9; 9; 9]
    = ([9; 9; 2; 1; 9; 9; 9; 9; 9; 9; 9; 9], Err TypeError) /\
  (length ([9; 9; 2; 1; 9; 9; 9; 9; 9; 9; 9; 9] : ArrayBuffer)
     = length ([9; 9; 9; 9; 9; 9; 9; 9; 9; 9; 9; 9] : ArrayBuffer) /\
   forall i : nat, Z.of_nat i < 2 ->
     ([9; 9; 2; 1; 9; 9; 9; 9; 9; 9; 9; 9] : ArrayBuffer) !! i
     = ([9; 9; 9; 9; 9; 9; 9; 9; 9; 9; 9; 9] : ArrayBuffer) !! i).
Proof.
  split; [reflexivity |].
  apply (encode_any_outcome_keeps_prefix (Tuple [u16; u64])
           (VArr [VNum (of_Z 258); VNum (of_Z 1)]) 2 STANDARD
           [9; 9; 9; 9; 9; 9; 9; 9; 9; 9; 9; 9] [9; 9; 2; 1; 9; 9; 9; 9; 9; 9; 9; 9]
           (Err TypeError)).
  reflexivity.
Defined.

(** ** What every returning call of the encoder satisfies *)

(** A relation between the buffer and offset before a call and those after
    it that holds across no write, across one write of [DataView] and
    across two calls in a row holds across every returning call of
    [encode]. *)
Section encode_returns.
Variable R : ArrayBuffer -> Z -> ArrayBuffer -> Z -> Prop.
Hypothesis R_refl : forall buffer offset, R buffer offset buffer offset.
Hypothesis R_trans : forall b0 o0 b1 o1 b2 o2,
  R b0 o0 b1 o1 -> R b1 o1 b2 o2 -> R b0 o0 b2 o2.
Hypothesis R_write : forall offset bytes buffer buffer' u,
  view_set offset bytes buffer = (buffer', Ok u) ->
  R buffer offset buffer' (offset + Z.of_nat (length bytes)).

Lemma setter_returns {A} (conv : result A) (bytes : A -> list Z) (w : nat) offset
    buffer buffer' u :
  (forall a, length (bytes a) = w) ->
  (if offset <? 0 then throw RangeError
   else a ← lift conv; view_set offset (bytes a)) buffer = (buffer', Ok u) ->
  R buffer offset buffer' (offset + Z.of_nat w).
Proof.
  intros Hw H. destruct (offset <? 0); [destruct (throw_Ok _ _ _ _ H) |].
  inv_enc. apply R_write in H. by rewrite Hw in H.
Qed.

Lemma encode_each_returns es index tupleValue offset config buffer buffer' offset' :
  Forall (returns_in R) es ->
  encode_each es index tupleValue offset config buffer = (buffer', Ok offset') ->
  R buffer offset buffer' offset'.
Proof.
  intros Hes. revert index offset buffer.
  induction Hes as [|e es He _ IH]; intros index offset buffer H; simpl in H.
  - inv_enc. apply R_refl.
  - inv_enc. eapply R_trans; [by eapply He | by eapply IH].
Qed.

Lemma encode_times_returns n e index arrayValue offset config buffer buffer' offset' :
  returns_in R e ->
  encode_times n e index arrayValue offset config buffer = (buffer', Ok offset') ->
  R buffer offset buffer' offset'.
Proof.
  intros He. revert index offset buffer.
  induction n as [|n IH]; intros index offset buffer H; simpl in H.
  - inv_enc. apply R_refl.
  - inv_enc. eapply R_trans; [by eapply He | by eapply IH].
Qed.

Lemma encode_fields_returns (fs : list (string * Encoder)) structValue offset config
    buffer buffer' offset' :
  Forall (fun f => returns_in R f.2) fs ->
  encode_fields fs structValue offset config buffer = (buffer', Ok offset') ->
  R buffer offset buffer' offset'.
Proof.
  intros Hfs. revert offset buffer.
  induction Hfs as [|[field e] fs He _ IH]; intros offset buffer H; simpl in H.
  - inv_enc. apply R_refl.
  - inv_enc. eapply R_trans; [by eapply He | by eapply IH].
Qed.

Lemma encode_elements_returns e elements offset config buffer buffer' offset' :
  returns_in R e ->
  encode_elements e elements offset config buffer = (buffer', Ok offset') ->
  R buffer offset buffer' offset'.
Proof.
  intros He. revert offset buffer.
  induction elements as [|x elements IH]; intros offset buffer H; simpl in H.
  - inv_enc. apply R_refl.
  - inv_enc. eapply R_trans; [by eapply He | by eapply IH].
Qed.

Lemma encode_returns_in (type : Ty) : returns_in R (encode type).
Proof.
  induction type as [kind | elements IH | element size IH | fields IH | variants IH
                    | element IH] using Ty_nested_ind;
    intros value offset config buffer buffer' offset' H; simpl in H.
  - destruct kind; inv_enc;
      try (apply R_refl);
      try (match goal with
           | H : setInteger ?w _ _ _ _ = _ |- _ =>
               by apply (setter_returns _ _ w) in H; [| intros; apply length_int_bytes]
           | H : setBigInteger _ _ _ _ = _ |- _ =>
               by apply (setter_returns _ _ 8%nat) in H; [| intros; apply length_int_bytes]
           | H : setFloat _ _ ?w _ _ _ _ = _ |- _ =>
               by apply (setter_returns _ _ w) in H; [| intros; apply length_int_bytes]
           end).
    match goal with
    | H1 : setBigInteger _ _ _ _ = _, H2 : view_set _ _ _ = _ |- _ =>
        apply (setter_returns _ _ 8%nat) in H1; [| intros; apply length_int_bytes];
        apply R_write in H2
    end.
    eapply R_trans; eauto.
  - destruct elements as [|t [|t' elements]].
    + eapply encode_each_returns; [| exact H]. by apply Forall_fmap.
    + apply Forall_cons_1 in IH as [IH _]. by eapply IH.
    + eapply encode_each_returns; [| exact H]. by apply Forall_fmap.
  - by eapply encode_times_returns.
  - eapply encode_fields_returns; [| exact H].
    apply Forall_enumerate, Forall_fmap. exact IH.
  - inv_enc. destruct x as [name variantValue]. simpl in H.
    destruct (get_own _ name) as [[variantIndex variant]|] eqn:Hown;
      [| destruct (throw_Ok _ _ _ _ H)].
    inv_enc. apply get_own_elem_of, list_elem_of_fmap in Hown as ([k [d t]] & [= -> -> ->] & Hin).
    rewrite Forall_forall in IH. specialize (IH _ Hin). simpl in *.
    match goal with
    | Hs : setInteger _ _ _ _ _ = _ |- _ =>
        apply (setter_returns _ _ 4%nat) in Hs; [| intros; apply length_int_bytes]
    end.
    eapply R_trans; [eassumption | by eapply IH].
  - inv_enc.
    match goal with
    | Hs : setBigInteger _ _ _ _ = _ |- _ =>
        apply (setter_returns _ _ 8%nat) in Hs; [| intros; apply length_int_bytes]
    end.
    eapply R_trans; [eassumption | by eapply encode_elements_returns].
Qed.
End encode_returns.

Lemma within_trans b0 o0 b1 o1 b2 o2 :
  within b0 o0 b1 o1 -> within b1 o1 b2 o2 -> within b0 o0 b2 o2.
Proof.
  unfold within, byteLength. intros (Hl1 & Ho1 & Hb1) (Hl2 & Ho2 & Hb2).
  rewrite Hl1 in Hb2. split; [congruence | split; [lia |]]. intros Hlt.
  destruct (decide (o0 < o1)); destruct (decide (o1 < o2)); lia.
Qed.

Lemma within_write offset bytes buffer buffer' u :
  view_set offset bytes buffer = (buffer', Ok u) ->
  within buffer offset buffer' (offset + Z.of_nat (length bytes)).
Proof.
  intros H. pose proof (view_set_frame _ _ _ _ _ H) as (Hl & _ & _).
  apply view_set_Ok in H as (H0 & H1 & _). unfold within. split; [done |]. lia.
Qed.

(** No write beyond the buffer: when [encode] returns an offset other than
    the one it was given, [offset] is not negative and the returned offset
    is at most the length of the buffer; a value that does not fit makes
    the call throw instead (a [RangeError] of [DataView]). *)
Theorem encode_stays_in_buffer (type : Ty) (value : Value) (offset : Z)
    (config : BincodeConfig) (buffer buffer' : ArrayBuffer) (offset' : Z) :
  encode type value offset config buffer = (buffer', Ok offset') ->
  offset <= offset' /\ (offset < offset' -> 0 <= offset /\ offset' <= byteLength buffer).
Proof.
  intros H. eapply (encode_returns_in within) in H as (_ & Ho & Hb); [done | | |].
  - intros b o. unfold within. split; [done |]. lia.
  - apply within_trans.
  - apply within_write.
Qed.

Lemma encode_stays_in_buffer_witness :
  encode (Array u16 2) (VArr [VNum (of_Z 1); VNum (of_Z 2)]) 1 STANDARD [9; 9; 9; 9; 9]
    = ([9; 1; 0; 2; 0], Ok 5) /\
  (1 <= 5 /\ (1 < 5 -> 0 <= 1 /\ 5 <= byteLength [9; 9; 9; 9; 9])).
Proof.
  split; [reflexivity |].
  apply (encode_stays_in_buffer (Array u16 2) (VArr [VNum (of_Z 1); VNum (of_Z 2)])
           1 STANDARD [9; 9; 9; 9; 9] [9; 1; 0; 2; 0] 5).
  reflexivity.
Defined.

(** ** The cursor of the decoder *)

Lemma advance_refl inside buffer offset : advance inside buffer offset offset.
Proof. split; lia. Qed.

Lemma advance_trans inside buffer o0 o1 o2 :
  advance inside buffer o0 o1 -> advance inside buffer o1 o2 -> advance inside buffer o0 o2.
Proof.
  intros [H1 B1] [H2 B2]. split; [lia |]. intros Hin Hlt.
  destruct (decide (o0 < o1)); destruct (decide (o1 < o2)); try lia.
  - specialize (B1 Hin ltac:(done)). specialize (B2 Hin ltac:(done)). lia.
  - specialize (B1 Hin ltac:(done)). lia.
  - specialize (B2 Hin ltac:(done)). lia.
Qed.

Lemma advances_weaken (b1 b2 : bool) d :
  (b2 = true -> b1 = true) -> advances b1 d -> advances b2 d.
Proof.
  intros Hb Hd buffer offset config value offset' H.
  destruct (Hd _ _ _ _ _ H) as [Ho Hin]. split; [done |]. auto.
Qed.

Lemma view_get_Ok buffer offset w bytes :
  view_get buffer offset w = Ok bytes ->
  0 <= offset /\ offset + Z.of_nat w <= byteLength buffer.
Proof.
  unfold view_get, in_view.
  destruct (Z.leb_spec 0 offset); simpl; [| done].
  destruct (Z.leb_spec (offset + Z.of_nat w) (byteLength buffer)); [| done]. lia.
Qed.

Lemma getUint_Ok w buffer offset e z :
  getUint w buffer offset e = Ok z ->
  0 <= offset /\ offset + Z.of_nat w <= byteLength buffer.
Proof.
  unfold getUint. destruct (view_get buffer offset w) as [bytes|] eqn:Hget; [| done].
  intros _. by eapply view_get_Ok.
Qed.

Lemma getInt_Ok w buffer offset e z :
  getInt w buffer offset e = Ok z ->
  0 <= offset /\ offset + Z.of_nat w <= byteLength buffer.
Proof.
  unfold getInt. destruct (getUint w buffer offset e) as [u|] eqn:Hget; [| done].
  intros _. by eapply getUint_Ok.
Qed.

Lemma read_advance inside buffer offset (w : nat) :
  0 <= offset /\ offset + Z.of_nat w <= byteLength buffer ->
  advance inside buffer offset (offset + Z.of_nat w).
Proof. intros [H0 H1]. split; lia. Qed.

Lemma decode_each_advances inside ds buffer offset config values offset' :
  Forall (advances inside) ds ->
  decode_each ds buffer offset config = Ok (values, offset') ->
  advance inside buffer offset offset'.
Proof.
  intros Hds. revert offset values.
  induction Hds as [|d ds Hd _ IH]; intros offset values H; simpl in H.
  - injection H as _ <-. apply advance_refl.
  - destruct (d buffer offset config) as [[v o1]|] eqn:H1; [| done]. simpl in H.
    destruct (decode_each ds buffer o1 config) as [[vs o2]|] eqn:H2; [| done].
    injection H as _ <-. eapply advance_trans; [by eapply Hd | by eapply IH].
Qed.

Lemma decode_times_advances inside n d buffer offset config values offset' :
  advances inside d ->
  decode_times n d buffer offset config = Ok (values, offset') ->
  advance inside buffer offset offset'.
Proof.
  intros Hd. revert offset values.
  induction n as [|n IH]; intros offset values H; simpl in H.
  - injection H as _ <-. apply advance_refl.
  - destruct (d buffer offset config) as [[v o1]|] eqn:H1; [| done]. simpl in H.
    destruct (decode_times n d buffer o1 config) as [[vs o2]|] eqn:H2; [| done].
    injection H as _ <-. eapply advance_trans; [by eapply Hd | by eapply IH].
Qed.

Lemma decode_fields_advances inside (fs : list (string * Decoder)) acc buffer offset config
    decodedObject offset' :
  Forall (fun f => advances inside f.2) fs ->
  decode_fields fs acc buffer offset config = Ok (decodedObject, offset') ->
  advance inside buffer offset offset'.
Proof.
  intros Hfs. revert acc offset.
  induction Hfs as [|[field d] fs Hd _ IH]; intros acc offset H; simpl in H.
  - injection H as _ <-. apply advance_refl.
  - destruct (d buffer offset config) as [[v o1]|] eqn:H1; [| done]. simpl in H.
    eapply advance_trans; [by eapply Hd | by eapply IH].
Qed.

(** What the reverse index holds comes from the enum. *)
Lemma foldl_indexed_lookup {A} (L : list (string * (Z * A))) (acc : gmap Z (A * string))
    d x name :
  foldl (fun indexedDefinition entry =>
           <[entry.2.1 := (entry.2.2, entry.1)]> indexedDefinition) acc L !! d
    = Some (x, name) ->
  acc !! d = Some (x, name) \/ (name, (d, x)) ∈ L.
Proof.
  revert acc. induction L as [|[k [d0 y]] L IH]; intros acc H; simpl in H; [by left |].
  apply IH in H as [H | H]; [| right; by apply elem_of_cons; right].
  rewrite lookup_insert in H. simpl in H. destruct (decide (d0 = d)) as [-> | _].
  - injection H as <- <-. right. apply elem_of_cons. by left.
  - by left.
Qed.

Lemma indexed_elem_of {A} (e : list (string * (Z * A))) d x name :
  indexed e !! d = Some (x, name) -> (name, (d, x)) ∈ e.
Proof.
  unfold indexed. intros [H | H]%foldl_indexed_lookup.
  - by rewrite lookup_empty in H.
  - by apply elem_of_enumerate.
Qed.

Lemma forallb_elem_of {A} (f : A -> bool) (l : list A) x :
  forallb f l = true -> x ∈ l -> f x = true.
Proof.
  intros H Hx. rewrite forallb_forall in H. apply H. by apply list_elem_of_In.
Qed.

Lemma decode_advances (type : Ty) : advances (string_free type) (decode type).
Proof.
  induction type as [kind | elements IH | element size IH | fields IH | variants IH
                    | element IH] using Ty_nested_ind;
    intros buffer offset config value offset' H; cbn [decode] in H.
  - destruct kind; try discriminate;
      try (by injection H as _ <-; apply advance_refl);
      try (by (destruct (getUint _ buffer offset _) as [z|] eqn:Hz; [| done];
               injection H as _ <-;
               first [ apply (read_advance _ _ _ 1) | apply (read_advance _ _ _ 2)
                     | apply (read_advance _ _ _ 4) | apply (read_advance _ _ _ 8) ];
               by eapply getUint_Ok));
      try (by (destruct (getInt _ buffer offset _) as [z|] eqn:Hz; [| done];
               injection H as _ <-;
               first [ apply (read_advance _ _ _ 1) | apply (read_advance _ _ _ 2)
                     | apply (read_advance _ _ _ 4) | apply (read_advance _ _ _ 8) ];
               by eapply getInt_Ok)).
    + unfold getFloat32 in H.
      destruct (getUint 4 buffer offset _) as [z|] eqn:Hz; [| done].
      injection H as _ <-. apply (read_advance _ _ _ 4). by eapply getUint_Ok.
    + unfold getFloat64 in H.
      destruct (getUint 8 buffer offset _) as [z|] eqn:Hz; [| done].
      injection H as _ <-. apply (read_advance _ _ _ 8). by eapply getUint_Ok.
    + destruct (getUint 8 buffer offset _) as [len|] eqn:Hz; [| done]. simpl in H.
      unfold Uint8Array in H. destruct (Z.leb_spec 0 len); simpl in H; [| done].
      destruct (_ <=? _); [| done]. injection H as _ <-. split; [lia | done].
  - destruct elements as [|t [|t' elements]].
    + injection H as _ <-. apply advance_refl.
    + apply Forall_cons_1 in IH as [IH _]. simpl. rewrite andb_true_r. by eapply IH.
    + destruct (decode_each _ _ _ _) as [[vs o]|] eqn:Hd; [| done]. injection H as _ <-.
      eapply decode_each_advances; [| exact Hd].
      apply Forall_fmap, Forall_forall. intros t0 Ht0.
      rewrite Forall_forall in IH. eapply advances_weaken; [| by apply IH].
      intros Hall. by eapply (forallb_elem_of string_free).
  - destruct (decode_times _ _ _ _ _) as [[vs o]|] eqn:Hd; [| done]. injection H as _ <-.
    by eapply decode_times_advances.
  - destruct (decode_fields _ _ _ _ _) as [[obj o]|] eqn:Hd; [| done]. injection H as _ <-.
    eapply decode_fields_advances; [| exact Hd].
    apply Forall_enumerate, Forall_fmap, Forall_forall. intros f Hf.
    rewrite Forall_forall in IH. eapply advances_weaken; [| by apply IH].
    intros Hall. by eapply (forallb_elem_of (fun f => string_free f.2)).
  - destruct (getUint 4 buffer offset false) as [idx|] eqn:Hidx; [| done]. simpl in H.
    destruct (indexed _ !! idx) as [[variantType name]|] eqn:Hlook; [| done].
    apply indexed_elem_of, list_elem_of_fmap in Hlook as ([k [d t]] & [= -> -> ->] & Hin).
    destruct (decode t buffer (offset + 4) config) as [[v o]|] eqn:Hd; [| done].
    injection H as _ <-. rewrite Forall_forall in IH.
    eapply advance_trans; [apply (read_advance _ _ _ 4); by eapply getUint_Ok |].
    eapply (advances_weaken (string_free t)); [| by apply (IH _ Hin) | exact Hd].
    intros Hall.
    exact (forallb_elem_of (fun v : string * (Z * Ty) => string_free v.2.2) _ _ Hall Hin).
  - exfalso. destruct (getUint 8 buffer 0 _) as [count|]; [| done]. simpl in H.
    destruct (2 ^ 53 <? count); [done |].
    by destruct (decode_times _ _ _ _ _) as [[vs o]|].
Qed.

(** The cursor of [decode] never goes back: a returning call returns an
    offset at least the one it was given, for every descriptor. *)
Theorem decode_cursor_never_goes_back (type : Ty) (buffer : ArrayBuffer) (offset : Z)
    (config : BincodeConfig) (value : Value) (offset' : Z) :
  decode type buffer offset config = Ok (value, offset') -> offset <= offset'.
Proof. intros H. by apply decode_advances in H as [Ho _]. Qed.

Lemma decode_cursor_never_goes_back_witness :
  decode (Tuple [u8; Str]) [7; 1; 0; 0; 0; 0; 0; 0; 0; 65] 0 STANDARD
    = Ok (VArr [VNum (of_Z 7); VStr (String.String "000" "")], 10) /\ 0 <= 10.
Proof.
  split; [reflexivity |].
  apply (decode_cursor_never_goes_back (Tuple [u8; Str])
           [7; 1; 0; 0; 0; 0; 0; 0; 0; 65] 0 STANDARD
           (VArr [VNum (of_Z 7); VStr (String.String "000" "")]) 10).
  reflexivity.
Defined.

(** No read beyond the buffer, String apart: when [decode] under a
    descriptor with no String in it returns with the cursor moved, the
    offset it was given is not negative and the one it returns is at most
    the length of the buffer; a buffer too short makes the call throw (a
    [RangeError] of [DataView]). *)
Theorem decode_stays_in_buffer (type : Ty) (buffer : ArrayBuffer) (offset : Z)
    (config : BincodeConfig) (value : Value) (offset' : Z) :
  string_free type = true ->
  decode type buffer offset config = Ok (value, offset') ->
  offset < offset' ->
  0 <= offset /\ offset' <= byteLength buffer.
Proof. intros Hfree H Hlt. apply decode_advances in H as [_ Hin]. auto. Qed.

Lemma decode_stays_in_buffer_witness :
  string_free (Array u16 2) = true /\
  decode (Array u16 2) [9; 1; 0; 2; 0] 1 STANDARD
    = Ok (VArr [VNum (of_Z 1); VNum (of_Z 2)], 5) /\
  1 < 5 /\
  (0 <= 1 /\ 5 <= byteLength [9; 1; 0; 2; 0]).
Proof.
  assert (H1 : string_free (Array u16 2) = true) by reflexivity.
  assert (H2 : decode (Array u16 2) [9; 1; 0; 2; 0] 1 STANDARD
               = Ok (VArr [VNum (of_Z 1); VNum (of_Z 2)], 5)) by reflexivity.
  assert (H3 : 1 < 5) by lia.
  split; [exact H1 | split; [exact H2 | split; [exact H3 |]]].
  exact (decode_stays_in_buffer (Array u16 2) [9; 1; 0; 2; 0] 1 STANDARD
           (VArr [VNum (of_Z 1); VNum (of_Z 2)]) 5 H1 H2 H3).
Defined.

(** With a String the returned offset can lie beyond the buffer: the text is
    taken at the literal 8 while the cursor moves from [offset]. *)
Lemma decode_string_cursor_leaves_buffer :
  decode Str [0; 0; 0; 0; 0; 0; 0; 0; 1; 0; 0; 0; 0; 0; 0; 0] 8 STANDARD
    = Ok (VStr (String.String "001" ""), 17) /\
  byteLength [0; 0; 0; 0; 0; 0; 0; 0; 1; 0; 0; 0; 0; 0; 0; 0] = 16.
Proof. split; reflexivity. Qed.

(** ** What the decoder reads *)

Lemma agree_restrict b1 b2 lo hi lo' hi' :
  lo <= lo' -> hi' <= hi -> agree b1 b2 lo hi -> agree b1 b2 lo' hi'.
Proof. intros Hlo Hhi [Hl Hin]. split; [done |]. intros i Hi. apply Hin. lia. Qed.

Lemma getUint_agree w b1 b2 offset e :
  agree b1 b2 offset (offset + Z.of_nat w) -> getUint w b1 offset e = getUint w b2 offset e.
Proof. intros H. unfold getUint. by rewrite (view_get_agree _ _ _ _ H). Qed.

Lemma decode_each_reads_between inside ds :
  Forall reads_between ds -> Forall (advances inside) ds ->
  forall buffer buffer2 offset config values offset',
    decode_each ds buffer offset config = Ok (values, offset') ->
    agree buffer2 buffer offset offset' ->
    decode_each ds buffer2 offset config = Ok (values, offset').
Proof.
  intros Hr Ha. induction ds as [|d ds IH];
    intros buffer buffer2 offset config values offset' H Hag; [done |].
  apply Forall_cons_1 in Hr as [Hd Hr]. apply Forall_cons_1 in Ha as [Had Ha].
  simpl in *. destruct (d buffer offset config) as [[v o1]|] eqn:H1; [| done]. simpl in H.
  destruct (decode_each ds buffer o1 config) as [[vs o2]|] eqn:H2; [| done].
  injection H as <- <-.
  destruct (Had _ _ _ _ _ H1) as [Ho1 _].
  destruct (decode_each_advances _ _ _ _ _ _ _ Ha H2) as [Ho2 _].
  rewrite (Hd _ buffer2 _ _ _ _ H1) by (eapply agree_restrict; [| | exact Hag]; lia).
  simpl. rewrite (IH Hr Ha _ buffer2 _ _ _ _ H2); [done |].
  eapply agree_restrict; [| | exact Hag]; lia.
Qed.

Lemma decode_times_reads_between inside n d :
  reads_between d -> advances inside d ->
  forall buffer buffer2 offset config values offset',
    decode_times n d buffer offset config = Ok (values, offset') ->
    agree buffer2 buffer offset offset' ->
    decode_times n d buffer2 offset config = Ok (values, offset').
Proof.
  intros Hd Had. induction n as [|n IH];
    intros buffer buffer2 offset config values offset' H Hag; [done |].
  simpl in *. destruct (d buffer offset config) as [[v o1]|] eqn:H1; [| done]. simpl in H.
  destruct (decode_times n d buffer o1 config) as [[vs o2]|] eqn:H2; [| done].
  injection H as <- <-.
  destruct (Had _ _ _ _ _ H1) as [Ho1 _].
  destruct (decode_times_advances _ _ _ _ _ _ _ _ Had H2) as [Ho2 _].
  rewrite (Hd _ buffer2 _ _ _ _ H1) by (eapply agree_restrict; [| | exact Hag]; lia).
  simpl. rewrite (IH _ buffer2 _ _ _ _ H2); [done |].
  eapply agree_restrict; [| | exact Hag]; lia.
Qed.

Lemma decode_fields_reads_between inside (fs : list (string * Decoder)) :
  Forall (fun f => reads_between f.2) fs -> Forall (fun f => advances inside f.2) fs ->
  forall acc buffer buffer2 offset config decodedObject offset',
    decode_fields fs acc buffer offset config = Ok (decodedObject, offset') ->
    agree buffer2 buffer offset offset' ->
    decode_fields fs acc buffer2 offset config = Ok (decodedObject, offset').
Proof.
  intros Hr Ha. induction fs as [|[field d] fs IH];
    intros acc buffer buffer2 offset config obj offset' H Hag; [done |].
  apply Forall_cons_1 in Hr as [Hd Hr]. apply Forall_cons_1 in Ha as [Had Ha].
  simpl in *. destruct (d buffer offset config) as [[v o1]|] eqn:H1; [| done]. simpl in H.
  destruct (Had _ _ _ _ _ H1) as [Ho1 _].
  destruct (decode_fields_advances _ _ _ _ _ _ _ _ Ha H) as [Ho2 _].
  rewrite (Hd _ buffer2 _ _ _ _ H1) by (eapply agree_restrict; [| | exact Hag]; lia).
  simpl. apply (IH Hr Ha _ _ buffer2 _ _ _ _ H).
  eapply agree_restrict; [| | exact Hag]; lia.
Qed.

Lemma decode_reads_between (type : Ty) :
  string_free type = true -> reads_between (decode type).
Proof.
  induction type as [kind | elements IH | element size IH | fields IH | variants IH
                    | element IH] using Ty_nested_ind;
    intros Hfree buffer buffer2 offset config value offset' H Hag; cbn [decode] in *.
  - destruct kind; try discriminate; try done;
      try (by (destruct (getUint _ buffer offset _) as [z|] eqn:Hz; [| done];
               injection H as <- <-;
               first [ rewrite (getUint_agree 1 buffer2 buffer)
                     | rewrite (getUint_agree 2 buffer2 buffer)
                     | rewrite (getUint_agree 4 buffer2 buffer)
                     | rewrite (getUint_agree 8 buffer2 buffer) ];
               [by rewrite Hz | done]));
      try (by (unfold getInt in *;
               destruct (getUint _ buffer offset _) as [z|] eqn:Hz; [| done];
               injection H as <- <-;
               first [ rewrite (getUint_agree 1 buffer2 buffer)
                     | rewrite (getUint_agree 2 buffer2 buffer)
                     | rewrite (getUint_agree 4 buffer2 buffer)
                     | rewrite (getUint_agree 8 buffer2 buffer) ];
               [by rewrite Hz | done])).
    + unfold getFloat32 in *. destruct (getUint 4 buffer offset _) as [z|] eqn:Hz; [| done].
      injection H as <- <-. rewrite (getUint_agree 4 buffer2 buffer); [by rewrite Hz | done].
    + unfold getFloat64 in *. destruct (getUint 8 buffer offset _) as [z|] eqn:Hz; [| done].
      injection H as <- <-. rewrite (getUint_agree 8 buffer2 buffer); [by rewrite Hz | done].
  - destruct elements as [|t [|t' elements]]; [done | |].
    + apply Forall_cons_1 in IH as [IH _]. simpl in Hfree. rewrite andb_true_r in Hfree.
      by eapply IH.
    + destruct (decode_each _ buffer _ _) as [[vs o]|] eqn:Hd; [| done]. injection H as <- <-.
      erewrite (decode_each_reads_between false); [done | | | exact Hd | done].
      * apply Forall_fmap, Forall_forall. intros t0 Ht0. rewrite Forall_forall in IH.
        apply IH; [done |]. by eapply (forallb_elem_of string_free).
      * apply Forall_fmap, Forall_forall. intros t0 Ht0.
        eapply advances_weaken; [| apply decode_advances]. done.
  - destruct (decode_times _ _ buffer _ _) as [[vs o]|] eqn:Hd; [| done]. injection H as <- <-.
    erewrite (decode_times_reads_between false); [done | | | exact Hd | done].
    + by apply IH.
    + eapply advances_weaken; [| apply decode_advances]. done.
  - destruct (decode_fields _ _ buffer _ _) as [[obj o]|] eqn:Hd; [| done].
    injection H as <- <-.
    erewrite (decode_fields_reads_between false); [done | | | exact Hd | done].
    + apply Forall_enumerate, Forall_fmap, Forall_forall. intros f Hf.
      rewrite Forall_forall in IH. apply IH; [done |].
      exact (forallb_elem_of (fun f : string * Ty => string_free f.2) _ _ Hfree Hf).
    + apply Forall_enumerate, Forall_fmap, Forall_forall. intros f Hf.
      eapply advances_weaken; [| apply decode_advances]. done.
  - destruct (getUint 4 buffer offset false) as [idx|] eqn:Hidx; [| done]. simpl in H.
    destruct (indexed _ !! idx) as [[variantType name]|] eqn:Hlook; [| done].
    pose proof Hlook as Hlook'.
    apply indexed_elem_of, list_elem_of_fmap in Hlook' as ([k [d t]] & [= -> -> ->] & Hin).
    destruct (decode t buffer (offset + 4) config) as [[v o]|] eqn:Hd; [| done].
    injection H as <- <-. rewrite Forall_forall in IH.
    destruct (decode_advances t _ _ _ _ _ Hd) as [Ho _].
    rewrite (getUint_agree 4 buffer2 buffer)
      by (eapply agree_restrict; [| | exact Hag]; simpl; lia).
    rewrite Hidx. simpl. rewrite Hlook.
    pose proof (IH _ Hin (forallb_elem_of (fun v : string * (Z * Ty) => string_free v.2.2)
                            _ _ Hfree Hin) _ buffer2 _ _ _ _ Hd) as Hd2.
    simpl in Hd2. rewrite Hd2; [done |].
    eapply agree_restrict; [| | exact Hag]; lia.
  - exfalso. destruct (getUint 8 buffer 0 _) as [count|]; [| done]. simpl in H.
    destruct (2 ^ 53 <? count); [done |].
    by destruct (decode_times _ _ _ _ _) as [[vs o]|].
Qed.

(** Decoder frame property, String apart: under a descriptor with no String
    in it, what [decode] returns depends on the bytes between the offset it
    is given and the offset it returns only; in any buffer of the same
    length with the same bytes there it returns the same value and offset. *)
Theorem decode_reads_only_between_cursors (type : Ty) (buffer buffer2 : ArrayBuffer)
    (offset : Z) (config : BincodeConfig) (value : Value) (offset' : Z) :
  string_free type = true ->
  decode type buffer offset config = Ok (value, offset') ->
  length buffer2 = length buffer ->
  (forall i : nat, offset <= Z.of_nat i < offset' -> buffer2 !! i = buffer !! i) ->
  decode type buffer2 offset config = Ok (value, offset').
Proof.
  intros Hfree H Hlen Hsame. eapply decode_reads_between; [done | exact H |]. by split.
Qed.

Lemma decode_reads_only_between_cursors_witness :
  string_free (Tuple [u8; u16]) = true /\
  decode (Tuple [u8; u16]) [9; 7; 2; 1; 9] 1 STANDARD
    = Ok (VArr [VNum (of_Z 7); VNum (of_Z 258)], 4) /\
  length ([0; 7; 2; 1; 5] : ArrayBuffer) = length ([9; 7; 2; 1; 9] : ArrayBuffer) /\
  (forall i : nat, 1 <= Z.of_nat i < 4 ->
     ([0; 7; 2; 1; 5] : ArrayBuffer) !! i = ([9; 7; 2; 1; 9] : ArrayBuffer) !! i) /\
  decode (Tuple [u8; u16]) [0; 7; 2; 1; 5] 1 STANDARD
    = Ok (VArr [VNum (of_Z 7); VNum (of_Z 258)], 4).
Proof.
  assert (H1 : string_free (Tuple [u8; u16]) = true) by reflexivity.
  assert (H2 : decode (Tuple [u8; u16]) [9; 7; 2; 1; 9] 1 STANDARD
               = Ok (VArr [VNum (of_Z 7); VNum (of_Z 258)], 4)) by reflexivity.
  assert (H3 : length ([0; 7; 2; 1; 5] : ArrayBuffer) = length ([9; 7; 2; 1; 9] : ArrayBuffer))
    by reflexivity.
  assert (H4 : forall i : nat, 1 <= Z.of_nat i < 4 ->
                 ([0; 7; 2; 1; 5] : ArrayBuffer) !! i = ([9; 7; 2; 1; 9] : ArrayBuffer) !! i).
  { intros i Hi. destruct i as [|[|[|[|i]]]]; try reflexivity; lia. }
  split; [exact H1 | split; [exact H2 | split; [exact H3 | split; [exact H4 |]]]].
  exact (decode_reads_only_between_cursors (Tuple [u8; u16]) [9; 7; 2; 1; 9] [0; 7; 2; 1; 5]
           1 STANDARD (VArr [VNum (of_Z 7); VNum (of_Z 258)]) 4 H1 H2 H3 H4).
Defined.

(** ** Integers out of range *)



(** ** Enums: resolving a discriminant, naming a variant *)

Lemma foldl_indexed_last {A} (l2 : list (string * (Z * A))) (acc : gmap Z (A * string)) d v :
  Forall (fun e => e.2.1 <> d) l2 ->
  acc !! d = v ->
  foldl (fun indexedDefinition entry =>
           <[entry.2.1 := (entry.2.2, entry.1)]> indexedDefinition) acc l2 !! d = v.
Proof.
  intros Hl2. revert acc. induction Hl2 as [|e l2 He _ IH]; intros acc Hacc; simpl; [done |].
  apply IH. by rewrite lookup_insert_ne.
Qed.

Lemma indexed_resolves_last {A} (e l1 l2 : list (string * (Z * A))) name d x :
  enumerate e = l1 ++ (name, (d, x)) :: l2 ->
  Forall (fun v => v.2.1 <> d) l2 ->
  indexed e !! d = Some (x, name).
Proof.
  intros He Hl2. unfold indexed. rewrite He, foldl_app. simpl.
  apply foldl_indexed_last; [done |]. apply lookup_insert_eq.
Qed.

Lemma indexed_None {A} (e : list (string * (Z * A))) d :
  Forall (fun v => v.2.1 <> d) e -> indexed e !! d = None.
Proof.
  intros He. destruct (indexed e !! d) as [[x name]|] eqn:H; [| done].
  apply indexed_elem_of in H. rewrite Forall_forall in He. by destruct (He _ H).
Qed.

(** Unknown discriminant: when the four bytes at the cursor, read
    big-endian, are the discriminant of no variant of the enum, [decode]
    throws a [TypeError]. *)
Theorem decode_enum_unknown_discriminant (variants : list (string * (Z * Ty)))
    (buffer : ArrayBuffer) (offset : Z) (config : BincodeConfig) (variantIndex : Z) :
  getUint 4 buffer offset false = Ok variantIndex ->
  Forall (fun v => v.2.1 <> variantIndex) variants ->
  decode (Enum variants) buffer offset config = Err TypeError.
Proof.
  intros Hidx Hnone. cbn [decode]. rewrite Hidx. simpl.
  rewrite indexed_None; [done |]. apply Forall_fmap. exact Hnone.
Qed.

Lemma decode_enum_unknown_discriminant_witness :
  getUint 4 [0; 0; 0; 3; 7] 0 false = Ok 3 /\
  Forall (fun v : string * (Z * Ty) => v.2.1 <> 3)
    [("A"%string, (0, Tuple [u8])); ("B"%string, (5, Tuple [u8]))] /\
  decode (Enum [("A"%string, (0, Tuple [u8])); ("B"%string, (5, Tuple [u8]))])
    [0; 0; 0; 3; 7] 0 STANDARD = Err TypeError.
Proof.
  assert (H1 : getUint 4 [0; 0; 0; 3; 7] 0 false = Ok 3) by reflexivity.
  assert (H2 : Forall (fun v : string * (Z * Ty) => v.2.1 <> 3)
                 [("A"%string, (0, Tuple [u8])); ("B"%string, (5, Tuple [u8]))])
    by (repeat constructor; simpl; lia).
  split; [exact H1 | split; [exact H2 |]].
  exact (decode_enum_unknown_discriminant
           [("A"%string, (0, Tuple [u8])); ("B"%string, (5, Tuple [u8]))]
           [0; 0; 0; 3; 7] 0 STANDARD 3 H1 H2).
Defined.

(** Resolving a discriminant: [decode] takes the four bytes at the cursor
    big-endian and resolves them to the last variant, in enumeration order,
    that declares this discriminant; it decodes that variant's payload from
    the cursor moved by four and tags the result with the variant's name.
    With duplicate discriminants the earlier variants are never produced. *)
Theorem decode_enum_resolves_last_declared (variants l1 l2 : list (string * (Z * Ty)))
    (name : string) (d : Z) (t : Ty) (buffer : ArrayBuffer) (offset : Z)
    (config : BincodeConfig) :
  enumerate variants = l1 ++ (name, (d, t)) :: l2 ->
  Forall (fun v => v.2.1 <> d) l2 ->
  getUint 4 buffer offset false = Ok d ->
  decode (Enum variants) buffer offset config
  = '(variantValue, variantOffset) ← decode t buffer (offset + 4) config;
    Ok (VEnum name variantValue, variantOffset).
Proof.
  intros Henum Hl2 Hidx. cbn [decode]. rewrite Hidx. simpl.
  erewrite (indexed_resolves_last _
              ((fun v : string * (Z * Ty) => (v.1, (v.2.1, decode v.2.2))) <$> l1)
              ((fun v : string * (Z * Ty) => (v.1, (v.2.1, decode v.2.2))) <$> l2)
              name d (decode t)); [done | | by apply Forall_fmap].
  pose proof (enumerate_fmap (fun v : Z * Ty => (v.1, decode v.2)) variants) as Hmap.
  simpl in Hmap. rewrite Hmap, Henum, fmap_app. done.
Qed.

Lemma decode_enum_resolves_last_declared_witness :
  enumerate [("A"%string, (1, Tuple [u8])); ("B"%string, (1, Tuple [u16]))]
    = [("A"%string, (1, Tuple [u8]))] ++ ("B"%string, (1, Tuple [u16])) :: [] /\
  Forall (fun v : string * (Z * Ty) => v.2.1 <> 1) [] /\
  getUint 4 [0; 0; 0; 1; 7; 0] 0 false = Ok 1 /\
  decode (Enum [("A"%string, (1, Tuple [u8])); ("B"%string, (1, Tuple [u16]))])
    [0; 0; 0; 1; 7; 0] 0 STANDARD
  = '(variantValue, variantOffset) ← decode (Tuple [u16]) [0; 0; 0; 1; 7; 0] (0 + 4) STANDARD;
    Ok (VEnum "B" variantValue, variantOffset).
Proof.
  assert (H1 : enumerate [("A"%string, (1, Tuple [u8])); ("B"%string, (1, Tuple [u16]))]
               = [("A"%string, (1, Tuple [u8]))] ++ ("B"%string, (1, Tuple [u16])) :: [])
    by reflexivity.
  assert (H2 : Forall (fun v : string * (Z * Ty) => v.2.1 <> 1) []) by constructor.
  assert (H3 : getUint 4 [0; 0; 0; 1; 7; 0] 0 false = Ok 1) by reflexivity.
  split; [exact H1 | split; [exact H2 | split; [exact H3 |]]].
  exact (decode_enum_resolves_last_declared
           [("A"%string, (1, Tuple [u8])); ("B"%string, (1, Tuple [u16]))]
           [("A"%string, (1, Tuple [u8]))] [] "B" 1 (Tuple [u16])
           [0; 0; 0; 1; 7; 0] 0 STANDARD H1 H2 H3).
Defined.

(** Undeclared variant: [encode] of an enum value whose variant name the
    enum does not declare (nor [Object.prototype]) throws a [TypeError]
    before anything is written. *)
Theorem encode_enum_undeclared_variant (variants : list (string * (Z * Ty)))
    (name : string) (variantValue : Value) (offset : Z) (config : BincodeConfig)
    (buffer : ArrayBuffer) :
  get_own variants name = None ->
  inherited name = false ->
  encode (Enum variants) (VEnum name variantValue) offset config buffer
  = (buffer, Err TypeError).
Proof.
  intros Hown Hin. cbn [encode enum_slots]. unfold mbind at 1, Enc_bind, lift.
  rewrite (get_own_fmap (fun v : Z * Ty => (v.1, encode v.2))), Hown. simpl.
  by rewrite Hin.
Qed.

Lemma encode_enum_undeclared_variant_witness :
  get_own [("A"%string, (0, Tuple [u8])); ("B"%string, (5, Tuple [u8]))] "C" = None /\
  inherited "C" = false /\
  encode (Enum [("A"%string, (0, Tuple [u8])); ("B"%string, (5, Tuple [u8]))])
    (VEnum "C" (VNum (of_Z 7))) 0 STANDARD [9; 9; 9; 9; 9]
  = ([9; 9; 9; 9; 9], Err TypeError).
Proof.
  assert (H1 : get_own [("A"%string, (0, Tuple [u8])); ("B"%string, (5, Tuple [u8]))] "C"
               = None) by reflexivity.
  assert (H2 : inherited "C" = false) by reflexivity.
  split; [exact H1 | split; [exact H2 |]].
  exact (encode_enum_undeclared_variant
           [("A"%string, (0, Tuple [u8])); ("B"%string, (5, Tuple [u8]))]
           "C" (VNum (of_Z 7)) 0 STANDARD [9; 9; 9; 9; 9] H1 H2).
Defined.

(** ** Strings *)

Lemma utf8_of_string_range s : Forall (fun b => 0 <= b < 256) (utf8_of_string s).
Proof.
  unfold utf8_of_string. apply Forall_fmap, Forall_forall. intros a _. simpl.
  pose proof (N_ascii_bounded a). lia.
Qed.

Lemma utf8_run_ascii bytes :
  Forall (fun b => 0 <= b < 128) bytes -> utf8_run utf8_start bytes = bytes.
Proof.
  induction 1 as [|b bytes Hb _ IH]; [done |].
  cbn [utf8_run utf8_start needed]. unfold utf8_lead.
  destruct (Z.leb_spec 0 b); [| lia]. destruct (Z.leb_spec b 127); [| lia].
  simpl. by rewrite IH.
Qed.

Lemma string_of_utf8_of_string s : string_of_utf8 (utf8_of_string s) = s.
Proof.
  unfold string_of_utf8, utf8_of_string. rewrite <- list_fmap_compose.
  rewrite <- (String.string_of_list_ascii_of_string s) at 2. f_equal.
  induction (String.list_ascii_of_string s) as [|a l IH]; [done |].
  rewrite fmap_cons, IH. f_equal. simpl. by rewrite N2Z.id, ascii_N_embedding.
Qed.

Lemma TextDecoder_TextEncoder_ascii s :
  ascii_text s -> TextDecoder_decode (utf8_of_string s) = s.
Proof.
  intros Hs. unfold TextDecoder_decode.
  assert (Hr : Forall (fun b => 0 <= b < 128) (utf8_of_string s)).
  { pose proof (utf8_of_string_range s) as Hrange. unfold ascii_text in Hs.
    rewrite Forall_forall in *. intros b Hb. specialize (Hs b Hb).
    specialize (Hrange b Hb). lia. }
  rewrite utf8_run_ascii by done.
  assert (Hbom : strip_bom (utf8_of_string s) = utf8_of_string s).
  { destruct (utf8_of_string s) as [|b l]; [done |].
    apply Forall_cons_1 in Hr as [Hb _].
    unfold strip_bom. destruct b as [|p|p]; try done.
    destruct (decide (Z.pos p = 239)) as [Heq | Hne]; [lia |].
    repeat (destruct p as [p|p|]; try done). }
  rewrite Hbom. apply string_of_utf8_of_string.
Qed.

(** The layout of a String: [encode] writes, from [offset], the eight bytes
    of the UTF-8 length in the configured byte order and right after them
    the UTF-8 bytes of the text, and returns the offset past them; all that
    it needs is room for these bytes. *)
Theorem encode_string_layout (s : string) (offset : Z) (config : BincodeConfig)
    (buffer : ArrayBuffer) :
  0 <= offset ->
  offset + 8 + Z.of_nat (length (utf8_of_string s)) <= byteLength buffer ->
  encode Str (VStr s) offset config buffer
  = (take (Z.to_nat offset) buffer
       ++ (int_bytes (isLittleEndian config) 8 (Z.of_nat (length (utf8_of_string s)))
             ++ utf8_of_string s)
       ++ drop (Z.to_nat offset + (8 + length (utf8_of_string s))) buffer,
     Ok (offset + 8 + Z.of_nat (length (utf8_of_string s)))).
Proof.
  intros H0 Hroom. cbn [encode TextEncoder_encode].
  unfold mbind at 1, Enc_bind, lift. unfold setBigInteger.
  destruct (Z.ltb_spec offset 0); [lia |].
  unfold mbind at 1, Enc_bind. unfold mbind at 1, Enc_bind, lift. cbn [ToBigInt].
  set (len := int_bytes _ 8 _). set (text := utf8_of_string s) in *.
  assert (Hlen : length len = 8%nat) by apply length_int_bytes.
  rewrite view_set_in_view by (rewrite ?Hlen; lia).
  unfold mbind at 1, Enc_bind.
  rewrite view_set_in_view;
    [| lia | rewrite byteLength_splice by (unfold byteLength in Hroom; lia); lia].
  unfold mret, Enc_ret. f_equal.
  pose proof (splice_splice buffer (Z.to_nat offset) len text) as Hs.
  rewrite Hlen, length_app, Hlen in Hs.
  replace (Z.to_nat (offset + 8)) with (Z.to_nat offset + 8)%nat by lia.
  rewrite Hlen. apply Hs. unfold byteLength in Hroom. lia.
Qed.

Lemma encode_string_layout_witness :
  0 <= 1 /\
  1 + 8 + Z.of_nat (length (utf8_of_string "hi")) <= byteLength (replicate 12 9) /\
  encode Str (VStr "hi") 1 STANDARD (replicate 12 9)
  = (take (Z.to_nat 1) (replicate 12 9)
       ++ (int_bytes (isLittleEndian STANDARD) 8 (Z.of_nat (length (utf8_of_string "hi")))
             ++ utf8_of_string "hi")
       ++ drop (Z.to_nat 1 + (8 + length (utf8_of_string "hi"))) (replicate 12 9),
     Ok (1 + 8 + Z.of_nat (length (utf8_of_string "hi")))).
Proof.
  assert (H1 : 0 <= 1) by lia.
  assert (H2 : 1 + 8 + Z.of_nat (length (utf8_of_string "hi")) <= byteLength (replicate 12 9))
    by (vm_compute; discriminate).
  split; [exact H1 | split; [exact H2 |]].
  exact (encode_string_layout "hi" 1 STANDARD (replicate 12 9) H1 H2).
Defined.

Lemma Uint8Array_view_get buffer (byteOffset : Z) (n : nat) bytes :
  view_get buffer byteOffset n = Ok bytes ->
  Uint8Array buffer byteOffset (Z.of_nat n) = Ok bytes.
Proof.
  intros H. pose proof (view_get_Ok _ _ _ _ H) as [H0 H1].
  unfold view_get in H. destruct (in_view _ _ _); [| done]. injection H as <-.
  unfold Uint8Array. destruct (Z.leb_spec 0 (Z.of_nat n)); [| lia].
  destruct (Z.leb_spec (byteOffset + Z.of_nat n) (byteLength buffer)); [| lia].
  simpl. by rewrite Nat2Z.id.
Qed.

(** A String round trip holds at offset 0, where the literal offset 8 of
    [decode] is where the text is: for an ASCII text encoded at offset 0,
    decoding from offset 0 in the buffer [encode] left gives back the text
    and the offset [encode] returned. *)
Theorem string_roundtrip_at_offset_0 (s : string) (config : BincodeConfig)
    (buffer buffer' : ArrayBuffer) (offset' : Z) :
  ascii_text s ->
  byteLength buffer < 2 ^ 64 ->
  encode Str (VStr s) 0 config buffer = (buffer', Ok offset') ->
  decode Str buffer' 0 config = Ok (VStr s, offset').
Proof.
  intros Hascii Hsize Henc. cbn [encode TextEncoder_encode] in Henc.
  apply Enc_bind_Ok in Henc as (text & b0 & [[= <-] ->]%lift_Ok & Henc).
  apply Enc_bind_Ok in Henc as ([] & b1 & Hlen & Henc).
  apply Enc_bind_Ok in Henc as ([] & b2 & Htext & Henc).
  apply mret_Ok in Henc as [-> ->].
  pose proof (view_set_frame _ _ _ _ _ Htext) as (Hl2 & _ & Hout).
  pose proof (setBigInteger_frame _ _ _ _ _ _ Hlen) as (Hl1 & _ & _).
  pose proof (view_set_Ok _ _ _ _ _ Htext) as (_ & Hroom & _).
  cbn [decode].
  erewrite (setBigInteger_getUint (Z.of_nat (length (utf8_of_string s))));
    [| exact Hlen | split; [done |]; intros i Hi; apply Hout; lia].
  unfold byteLength in *.
  rewrite Z.mod_small by (change (256 ^ 8) with (2 ^ 64); lia). simpl.
  rewrite (Uint8Array_view_get _ 8 _ (utf8_of_string s))
    by (exact (view_get_view_set _ _ _ _ _ Htext)).
  simpl. by rewrite TextDecoder_TextEncoder_ascii.
Qed.

Lemma string_roundtrip_at_offset_0_witness :
  ascii_text "hi" /\
  byteLength (replicate 10 9) < 2 ^ 64 /\
  encode Str (VStr "hi") 0 STANDARD (replicate 10 9)
    = ([2; 0; 0; 0; 0; 0; 0; 0; 104; 105], Ok 10) /\
  decode Str [2; 0; 0; 0; 0; 0; 0; 0; 104; 105] 0 STANDARD = Ok (VStr "hi", 10).
Proof.
  assert (H1 : ascii_text "hi") by (repeat constructor).
  assert (H2 : byteLength (replicate 10 9) < 2 ^ 64) by reflexivity.
  assert (H3 : encode Str (VStr "hi") 0 STANDARD (replicate 10 9)
               = ([2; 0; 0; 0; 0; 0; 0; 0; 104; 105], Ok 10)) by reflexivity.
  split; [exact H1 | split; [exact H2 | split; [exact H3 |]]].
  exact (string_roundtrip_at_offset_0 "hi" STANDARD (replicate 10 9)
           [2; 0; 0; 0; 0; 0; 0; 0; 104; 105] 10 H1 H2 H3).
Defined.

(** ** Collections on the wire *)

Lemma encode_times_rest (e : Encoder) (elements rest : list Value) (index : nat) offset
    config buffer :
  drop index elements = rest ->
  encode_times (length rest) e index (VArr elements) offset config buffer
  = encode_elements e rest offset config buffer.
Proof.
  revert index offset buffer. induction rest as [|x rest IH];
    intros index offset buffer Hdrop; [done |].
  assert (Hlook : elements !! index = Some x).
  { rewrite <- (Nat.add_0_r index), <- lookup_drop, Hdrop. done. }
  rewrite (drop_S _ _ _ Hlook) in Hdrop. injection Hdrop as Hrest.
  cbn [length encode_times encode_elements get_index]. rewrite Hlook. cbn [default].
  unfold mbind at 1, Enc_bind, lift.
  unfold mbind, Enc_bind. change (id x) with x.
  destruct (e x offset config buffer) as [b1 [o1|err]]; [| done].
  by apply IH.
Qed.

Lemma encode_times_elements (e : Encoder) (elements : list Value) offset config buffer :
  encode_times (length elements) e 0 (VArr elements) offset config buffer
  = encode_elements e elements offset config buffer.
Proof. by apply encode_times_rest. Qed.

Lemma encode_collection_as_array (element : Ty) (elements : list Value)
    (offset : Z) (config : BincodeConfig) (buffer : ArrayBuffer) :
  encode (Collection element) (VArr elements) offset config buffer
  = (setBigInteger offset (VBig (Z.of_nat (length elements))) (isLittleEndian config);;
     encode (Array element (Z.of_nat (length elements))) (VArr elements) (offset + 8) config)
      buffer.
Proof.
  cbn [encode collection_elements]. unfold mbind at 1, Enc_bind, lift.
  unfold mbind, Enc_bind. destruct (setBigInteger _ _ _ _) as [b1 [[]|err]]; [| done].
  rewrite Nat2Z.id. symmetry. apply encode_times_elements.
Qed.

(** A collection is its count followed by an array: [encode] under
    Collection(t) does what writing the number of elements as eight bytes
    at [offset] and then encoding the same value under Array(t, that
    number) from [offset + 8] does, outcome and buffer alike. *)
Theorem encode_collection_is_count_then_array (element : Ty) (elements : list Value)
    (offset : Z) (config : BincodeConfig) (buffer : ArrayBuffer) :
  encode (Collection element) (VArr elements) offset config buffer
  = (setBigInteger offset (VBig (Z.of_nat (length elements))) (isLittleEndian config);;
     encode (Array element (Z.of_nat (length elements))) (VArr elements) (offset + 8) config)
      buffer.
Proof. apply encode_collection_as_array. Qed.

(** What [encode] writes for a collection can be read back, by the steps
    [decode] should take: in the buffer it leaves, the eight bytes at
    [offset] read as the number of elements, and decoding under
    Array(t, that number) from [offset + 8] gives back the elements and the
    offset [encode] returned (for element descriptors the round trip holds
    on). *)
Theorem encoded_collection_reads_back (element : Ty) (elements : list Value)
    (offset : Z) (config : BincodeConfig) (buffer buffer' : ArrayBuffer) (offset' : Z) :
  plain config element ->
  Forall (conforms element) elements ->
  Z.of_nat (length elements) < 2 ^ 64 ->
  encode (Collection element) (VArr elements) offset config buffer = (buffer', Ok offset') ->
  getUint 8 buffer' offset (isLittleEndian config) = Ok (Z.of_nat (length elements)) /\
  decode (Array element (Z.of_nat (length elements))) buffer' (offset + 8) config
    = Ok (VArr elements, offset').
Proof.
  intros Hplain Hconf Hsize Henc. rewrite encode_collection_as_array in Henc.
  apply Enc_bind_Ok in Henc as ([] & b1 & Hcount & Harr).
  pose proof (encode_framed _ _ _ _ _ _ _ Harr) as (Hl & Ho & Hout).
  split.
  - erewrite (setBigInteger_getUint (Z.of_nat (length elements)));
      [| exact Hcount | split; [done |]; intros i Hi; apply Hout; lia].
    rewrite Z.mod_small; [done |]. change (256 ^ 8) with (2 ^ 64). lia.
  - eapply (plain_inverse_on config (Array element (Z.of_nat (length elements))));
      [exact Hplain | | exact Harr | apply agree_refl].
    exists elements. done.
Qed.

Lemma encoded_collection_reads_back_witness :
  plain STANDARD u16 /\
  Forall (conforms u16) [VNum (of_Z 258); VNum (of_Z 3)] /\
  Z.of_nat (length [VNum (of_Z 258); VNum (of_Z 3)]) < 2 ^ 64 /\
  encode (Collection u16) (VArr [VNum (of_Z 258); VNum (of_Z 3)]) 1 STANDARD (replicate 13 9)
    = ([9; 2; 0; 0; 0; 0; 0; 0; 0; 2; 1; 3; 0], Ok 13) /\
  (getUint 8 [9; 2; 0; 0; 0; 0; 0; 0; 0; 2; 1; 3; 0] 1 (isLittleEndian STANDARD)
     = Ok (Z.of_nat (length [VNum (of_Z 258); VNum (of_Z 3)])) /\
   decode (Array u16 (Z.of_nat (length [VNum (of_Z 258); VNum (of_Z 3)])))
       [9; 2; 0; 0; 0; 0; 0; 0; 0; 2; 1; 3; 0] (1 + 8) STANDARD
     = Ok (VArr [VNum (of_Z 258); VNum (of_Z 3)], 13)).
Proof.
  assert (H1 : plain STANDARD u16) by exact I.
  assert (H2 : Forall (conforms u16) [VNum (of_Z 258); VNum (of_Z 3)]).
  { repeat constructor; [exists 258 | exists 3]; (split; [done | lia]). }
  assert (H3 : Z.of_nat (length [VNum (of_Z 258); VNum (of_Z 3)]) < 2 ^ 64) by reflexivity.
  assert (H4 : encode (Collection u16) (VArr [VNum (of_Z 258); VNum (of_Z 3)]) 1 STANDARD
                 (replicate 13 9)
               = ([9; 2; 0; 0; 0; 0; 0; 0; 0; 2; 1; 3; 0], Ok 13)) by reflexivity.
  split; [exact H1 | split; [exact H2 | split; [exact H3 | split; [exact H4 |]]]].
  exact (encoded_collection_reads_back u16 [VNum (of_Z 258); VNum (of_Z 3)] 1 STANDARD
           (replicate 13 9) [9; 2; 0; 0; 0; 0; 0; 0; 0; 2; 1; 3; 0] 13 H1 H2 H3 H4).
Defined.

(** ** Structs: the properties that are read *)

Lemma encode_fields_same_fields (fs : list (string * Encoder)) props props' offset config
    buffer :
  (forall name, name ∈ fs.*1 -> props !! name = props' !! name) ->
  encode_fields fs (VObj props) offset config buffer
  = encode_fields fs (VObj props') offset config buffer.
Proof.
  revert offset buffer. induction fs as [|[name e] fs IH]; intros offset buffer Hsame;
    [done |].
  cbn [encode_fields get_field].
  rewrite <- (Hsame name) by (rewrite fmap_cons; left).
  unfold mbind at 1 3, Enc_bind, lift.
  destruct (match props !! name with
            | Some x => Ok x
            | None => if inherited name then Err Unmodelled else Ok VUndef
            end) as [fieldValue|err]; [| done].
  unfold mbind, Enc_bind.
  destruct (e fieldValue offset config buffer) as [b1 [o1|err]]; [| done].
  apply IH. intros name' Hname'. apply Hsame. rewrite fmap_cons. by right.
Qed.

(** [encode] under a struct reads the properties of the value that the
    schema names and no other: two objects with the same values under these
    names are encoded alike, whatever else they hold; a property the schema
    does not name is neither written nor reported. *)
Theorem encode_struct_reads_named_fields_only (fields : list (string * Ty))
    (props props' : gmap string Value) (offset : Z) (config : BincodeConfig)
    (buffer : ArrayBuffer) :
  (forall name, name ∈ fields.*1 -> props !! name = props' !! name) ->
  encode (Struct fields) (VObj props) offset config buffer
  = encode (Struct fields) (VObj props') offset config buffer.
Proof.
  intros Hsame. cbn [encode]. apply encode_fields_same_fields.
  intros name Hname. apply Hsame.
  rewrite elem_of_enumerate_keys, <- list_fmap_compose in Hname. exact Hname.
Qed.

Lemma encode_struct_reads_named_fields_only_witness :
  (forall name, name ∈ [("a"%string, u8)].*1 ->
     (<["a"%string := VNum (of_Z 7)]> ∅ : gmap string Value) !! name
     = (<["z"%string := VStr "ignored"]> (<["a"%string := VNum (of_Z 7)]> ∅)
          : gmap string Value) !! name) /\
  encode (Struct [("a"%string, u8)]) (VObj (<["a"%string := VNum (of_Z 7)]> ∅))
      0 STANDARD [9; 9]
  = encode (Struct [("a"%string, u8)])
      (VObj (<["z"%string := VStr "ignored"]> (<["a"%string := VNum (of_Z 7)]> ∅)))
      0 STANDARD [9; 9].
Proof.
  assert (H : forall name, name ∈ [("a"%string, u8)].*1 ->
     (<["a"%string := VNum (of_Z 7)]> ∅ : gmap string Value) !! name
     = (<["z"%string := VStr "ignored"]> (<["a"%string := VNum (of_Z 7)]> ∅)
          : gmap string Value) !! name).
  { intros name Hname. simpl in Hname. apply list_elem_of_singleton in Hname as ->.
    reflexivity. }
  split; [exact H |].
  exact (encode_struct_reads_named_fields_only [("a"%string, u8)]
           (<["a"%string := VNum (of_Z 7)]> ∅)
           (<["z"%string := VStr "ignored"]> (<["a"%string := VNum (of_Z 7)]> ∅))
           0 STANDARD [9; 9] H).
Defined.
